(** * GC root and handle scanning (src/coreclr/gc/gcscan.cpp)

    A shallow embedding of the static members of [GCScan] together with the
    collaborators they drive: the handle table ([Ref_*]), the mark engine
    behind [g_theGCHeap] and the synchronization-block cache reached through
    [GCToEEInterface].  The members of [GCScan] are stateful C++ routines over
    process-wide data, so they are written here in a small state-and-assertion
    monad over one record, [World], that gathers that data. *)

From stdpp Require Import gmap list.
From Stdlib Require Import ZArith Lia.

#[local] Set Warnings "-clear-no-such-hyp".

(** ** Machine integers *)

Module Int32.
Definition min_signed : Z := -2147483648.
Definition max_signed : Z := 2147483647.
Definition modulus : Z := 4294967296.

(** Two's complement wrap-around of a mathematical integer into [int32_t]. *)
Definition wrap (z : Z) : Z := ((z - min_signed) mod modulus + min_signed)%Z.

Definition in_range (z : Z) : Prop := (min_signed ≤ z ≤ max_signed)%Z.
End Int32.

(** ** Data model *)

(** An object reference is an address; [NULL] is address zero. *)
Definition Object : Type := Z.
Definition NULL : Object := 0%Z.

(** The fields of [ScanContext] that gcscan.cpp reads. *)
Record ScanContext : Type := mkScanContext {
  thread_number : Z;
  promotion : bool
}.

(** The collector's heap as the scanning layer sees it: the reference fields
    of every object, the mark bits of the current cycle, the capacity of the
    mark stack and the relocation plan of a compacting cycle. *)
Record GCHeap : Type := mkGCHeap {
  heap_objects : gmap Z (list Z);
  heap_marks : gset Z;
  heap_mark_stack : nat;
  heap_plan : gmap Z Z
}.

(** [promote_func]: the callback receives the content of a slot and answers
    with the (possibly updated) content and the heap it leaves behind. *)
Definition promote_func : Type := Object → ScanContext → GCHeap → Object * GCHeap.

(** [DhContext], the per-heap state of dependent handle scanning. *)
Record DhContext : Type := mkDhContext {
  m_pfnPromoteFunction : promote_func;
  m_iCondemned : Z;
  m_iMaxGen : Z;
  m_pScanContext : ScanContext;
  m_fUnpromotedPrimaries : bool;
  m_fPromoted : bool
}.

(** A handle slot of a single-reference category, with the generation its
    clump is aged to. *)
Record HandleSlot : Type := mkHandleSlot {
  hnd_age : Z;
  hnd_ref : Object
}.

(** The handle table, by category.  A dependent handle is a pair
    (primary, secondary); the order of the list is the order of a table walk. *)
Record HandleTable : Type := mkHandleTable {
  tbl_strong : list HandleSlot;
  tbl_pinned : list HandleSlot;
  tbl_weak_short : list HandleSlot;
  tbl_weak_long : list HandleSlot;
  tbl_weak_interior : list HandleSlot;
  tbl_dependent : list (Object * Object)
}.

(** Calls that leave the scanning layer, in the order they are made. *)
Inductive Call : Type :=
| Call_Ref_ScanDependentHandlesForPromotion (thread : Z)
| Call_Ref_CheckReachable (condemned max_gen : Z) (sc : ScanContext)
| Call_Ref_ScanDependentHandlesForClearing (condemned max_gen : Z) (sc : ScanContext)
| Call_SyncBlockCacheWeakPtrScan (lp1 : ScanContext) (lp2 : Z)
| Call_Ref_TracePinningRoots (condemned max_gen : Z) (sc : ScanContext)
| Call_Ref_TraceNormalRoots (condemned max_gen : Z) (sc : ScanContext)
| Call_Ref_UpdatePointers (condemned max_gen : Z) (sc : ScanContext)
| Call_Ref_UpdatePinnedPointers (condemned max_gen : Z) (sc : ScanContext)
| Call_Ref_ScanDependentHandlesForRelocation (condemned max_gen : Z) (sc : ScanContext)
| Call_Ref_ScanWeakInteriorPointersForRelocation (condemned max_gen : Z) (sc : ScanContext)
| Call_Ref_RejuvenateHandles (condemned max_gen : Z) (sc : ScanContext)
| Call_SyncBlockCacheDemote (max_gen : Z)
| Call_Ref_AgeHandles (condemned max_gen : Z) (sc : ScanContext)
| Call_SyncBlockCachePromotionsGranted (max_gen : Z).

(** The process-wide data the members of [GCScan] read and write. *)
Record World : Type := mkWorld {
  m_GcStructuresInvalidCnt : Z;
  g_theGCHeap : GCHeap;
  g_HandleTable : HandleTable;
  g_DhContexts : Z → DhContext;
  g_SyncBlockCache : list Object;
  g_IsServerHeap : bool;
  g_Calls : list Call
}.

Definition set_InvalidCnt (c : Z) (w : World) : World :=
  mkWorld c (g_theGCHeap w) (g_HandleTable w) (g_DhContexts w)
          (g_SyncBlockCache w) (g_IsServerHeap w) (g_Calls w).

Definition set_GCHeap (h : GCHeap) (w : World) : World :=
  mkWorld (m_GcStructuresInvalidCnt w) h (g_HandleTable w) (g_DhContexts w)
          (g_SyncBlockCache w) (g_IsServerHeap w) (g_Calls w).

Definition set_HandleTable (t : HandleTable) (w : World) : World :=
  mkWorld (m_GcStructuresInvalidCnt w) (g_theGCHeap w) t (g_DhContexts w)
          (g_SyncBlockCache w) (g_IsServerHeap w) (g_Calls w).

Definition set_DhContexts (d : Z → DhContext) (w : World) : World :=
  mkWorld (m_GcStructuresInvalidCnt w) (g_theGCHeap w) (g_HandleTable w) d
          (g_SyncBlockCache w) (g_IsServerHeap w) (g_Calls w).

Definition set_SyncBlockCache (c : list Object) (w : World) : World :=
  mkWorld (m_GcStructuresInvalidCnt w) (g_theGCHeap w) (g_HandleTable w)
          (g_DhContexts w) c (g_IsServerHeap w) (g_Calls w).

Definition log_call (c : Call) (w : World) : World :=
  mkWorld (m_GcStructuresInvalidCnt w) (g_theGCHeap w) (g_HandleTable w)
          (g_DhContexts w) (g_SyncBlockCache w) (g_IsServerHeap w)
          (g_Calls w ++ [c]).

(** ** The monad of the scanning layer *)

(** A routine either returns, or trips an assertion and ends the process. *)
Inductive Outcome (A : Type) : Type :=
| Returned (a : A) (w : World)
| AssertFailed (w : World).
Arguments Returned {A} a w.
Arguments AssertFailed {A} w.

Definition GC (A : Type) : Type := World → Outcome A.

Definition ret {A} (a : A) : GC A := fun w => Returned a w.

Definition bind {A B} (m : GC A) (k : A → GC B) : GC B :=
  fun w => match m w with
           | Returned a w' => k a w'
           | AssertFailed w' => AssertFailed w'
           end.

Notation "'let*' x ':=' m 'in' k" := (bind m (fun x => k))
  (at level 10, x name, m at level 100, k at level 200).
Notation "m '>>' k" := (bind m (fun _ => k))
  (at level 90, right associativity).

Definition gets {A} (f : World → A) : GC A := fun w => Returned (f w) w.
Definition modify (f : World → World) : GC unit := fun w => Returned tt (f w).
Definition call (c : Call) : GC unit := modify (log_call c).

(** Modelled from the spec: the [_ASSERTE] macro is declared outside gcscan.cpp.
    The spec makes a violated invariant fatal ("no recovery, only immediate
    termination"), so a false condition ends the run in [AssertFailed]. *)
Definition _ASSERTE (cond : bool) : GC unit :=
  fun w => if cond then Returned tt w else AssertFailed w.

(** Modelled from the spec: [Interlocked::Increment] is outside gcscan.cpp; it
    "atomically increments the counter".  The new value, wrapped to
    [int32_t], is stored and returned. *)
Definition Interlocked_Increment : GC Z :=
  fun w => let r := Int32.wrap (m_GcStructuresInvalidCnt w + 1) in
           Returned r (set_InvalidCnt r w).

(** Modelled from the spec: [Interlocked::Decrement] is outside gcscan.cpp; it
    "atomically decrements the counter".  The new value, wrapped to
    [int32_t], is stored and returned. *)
Definition Interlocked_Decrement : GC Z :=
  fun w => let r := Int32.wrap (m_GcStructuresInvalidCnt w - 1) in
           Returned r (set_InvalidCnt r w).

(** ** The validity gate *)

Definition GetGcRuntimeStructuresValid : GC bool :=
  let* cnt := gets m_GcStructuresInvalidCnt in
  _ASSERTE (0 <=? cnt)%Z >>
  ret (cnt =? 0)%Z.

Definition GcRuntimeStructuresValid (bValid : bool) : GC unit :=
  if negb bValid then
    let* result := Interlocked_Increment in
    _ASSERTE (0 <? result)%Z
  else
    let* result := Interlocked_Decrement in
    _ASSERTE (0 <=? result)%Z.

(** A sequence of [GcRuntimeStructuresValid] calls, one per flag. *)
Fixpoint gate_calls (flags : list bool) : GC unit :=
  match flags with
  | [] => ret tt
  | b :: rest => GcRuntimeStructuresValid b >> gate_calls rest
  end.

(** Balanced use, seen from a counter that stands at [depth]: a validation
    only closes a window that is open, and the windows nest no deeper than
    an [int32_t] counts. *)
Fixpoint balanced (depth : Z) (flags : list bool) : bool :=
  match flags with
  | [] => true
  | false :: rest => (depth <? Int32.max_signed)%Z && balanced (depth + 1) rest
  | true :: rest => (0 <? depth)%Z && balanced (depth - 1) rest
  end.

(** The static initializer: [m_GcStructuresInvalidCnt = 1]. *)
Definition static_init (h : GCHeap) (t : HandleTable) (d : Z → DhContext)
    (cache : list Object) (server : bool) : World :=
  mkWorld 1 h t d cache server [].

(** ** The mark engine behind [g_theGCHeap] *)

Definition set_marks (m : gset Z) (h : GCHeap) : GCHeap :=
  mkGCHeap (heap_objects h) m (heap_mark_stack h) (heap_plan h).

(** Modelled from the spec: [IGCHeap::IsPromoted] is defined outside gcscan.cpp; an
    object "has been marked" when its mark bit is set. *)
Definition IsPromoted (h : GCHeap) (o : Object) : bool :=
  bool_decide (o ∈ heap_marks h).

Definition children (objs : gmap Z (list Z)) (o : Object) : list Object :=
  default [] (objs !! o).

(** Modelled from the spec: one round of the engine's trace marks
    everything a marked object refers to. *)
Definition mark_round (objs : gmap Z (list Z)) (m : gset Z) : gset Z :=
  m ∪ list_to_set (elements m ≫= children objs).

(** Modelled from the spec: the promotion callback of the mark-stack engine
    (outside gcscan.cpp) treats the reference as a root; its trace may stop early
    ("mark-stack overflow"), here after as many rounds as the mark stack
    holds.  The slot keeps its content. *)
Definition GCHeap_Promote : promote_func :=
  fun o _ h =>
    (o, set_marks (Nat.iter (heap_mark_stack h) (mark_round (heap_objects h))
                            ({[o]} ∪ heap_marks h)) h).

(** Modelled from the spec: the relocation callback of the engine rewrites
    a reference to the post-compaction address and marks nothing. *)
Definition GCHeap_Relocate : promote_func :=
  fun o _ h => (default o (heap_plan h !! o), h).

(** Every object some field refers to. *)
Definition field_targets (objs : gmap Z (list Z)) : gset Z :=
  list_to_set (map_to_list objs ≫= snd).

(** Modelled from the spec: tracing round after round until a round adds
    nothing, for at most [fuel] rounds. *)
Fixpoint drain (objs : gmap Z (list Z)) (fuel : nat) (m : gset Z) : gset Z :=
  match fuel with
  | O => m
  | S n => let m' := mark_round objs m in
           if decide (m' = m) then m else drain objs n m'
  end.

(** Modelled from the spec: the collector's own mark-stack draining (outside
    gcscan.cpp) completes the trace of everything marked so far and reports
    whether that marked anything new. *)
Definition process_mark_overflow : GC bool :=
  fun w =>
    let h := g_theGCHeap w in
    let m' := drain (heap_objects h) (size (field_targets (heap_objects h)))
                    (heap_marks h) in
    Returned (bool_decide (m' ≠ heap_marks h)) (set_GCHeap (set_marks m' h) w).

(** ** Dependent handle contexts *)

Definition set_m_pfnPromoteFunction (fn : promote_func) (c : DhContext) : DhContext :=
  mkDhContext fn (m_iCondemned c) (m_iMaxGen c) (m_pScanContext c)
              (m_fUnpromotedPrimaries c) (m_fPromoted c).

Definition set_m_iCondemned (v : Z) (c : DhContext) : DhContext :=
  mkDhContext (m_pfnPromoteFunction c) v (m_iMaxGen c) (m_pScanContext c)
              (m_fUnpromotedPrimaries c) (m_fPromoted c).

Definition set_m_iMaxGen (v : Z) (c : DhContext) : DhContext :=
  mkDhContext (m_pfnPromoteFunction c) (m_iCondemned c) v (m_pScanContext c)
              (m_fUnpromotedPrimaries c) (m_fPromoted c).

Definition set_m_pScanContext (sc : ScanContext) (c : DhContext) : DhContext :=
  mkDhContext (m_pfnPromoteFunction c) (m_iCondemned c) (m_iMaxGen c) sc
              (m_fUnpromotedPrimaries c) (m_fPromoted c).

Definition set_scan_flags (unpromoted promoted : bool) (c : DhContext) : DhContext :=
  mkDhContext (m_pfnPromoteFunction c) (m_iCondemned c) (m_iMaxGen c)
              (m_pScanContext c) unpromoted promoted.

(** A [DhContext*] is the index of the context in the per-heap array. *)
Definition upd_DhContext (p : Z) (f : DhContext → DhContext) (w : World) : World :=
  set_DhContexts
    (fun i => if decide (i = p) then f (g_DhContexts w i) else g_DhContexts w i) w.

(** Modelled from the spec: [Ref_GetDependentHandleContext] (outside gcscan.cpp)
    "retrieves the correct context for the current GC thread based on the
    ScanContext", one context per heap. *)
Definition Ref_GetDependentHandleContext (sc : ScanContext) : Z := thread_number sc.

(** ** Handle table categories *)

Definition set_tbl_strong (l : list HandleSlot) (t : HandleTable) : HandleTable :=
  mkHandleTable l (tbl_pinned t) (tbl_weak_short t) (tbl_weak_long t)
                (tbl_weak_interior t) (tbl_dependent t).

Definition set_tbl_pinned (l : list HandleSlot) (t : HandleTable) : HandleTable :=
  mkHandleTable (tbl_strong t) l (tbl_weak_short t) (tbl_weak_long t)
                (tbl_weak_interior t) (tbl_dependent t).

Definition set_tbl_weak_short (l : list HandleSlot) (t : HandleTable) : HandleTable :=
  mkHandleTable (tbl_strong t) (tbl_pinned t) l (tbl_weak_long t)
                (tbl_weak_interior t) (tbl_dependent t).

Definition set_tbl_weak_interior (l : list HandleSlot) (t : HandleTable) : HandleTable :=
  mkHandleTable (tbl_strong t) (tbl_pinned t) (tbl_weak_short t)
                (tbl_weak_long t) l (tbl_dependent t).

Definition set_tbl_weak_long (l : list HandleSlot) (t : HandleTable) : HandleTable :=
  mkHandleTable (tbl_strong t) (tbl_pinned t) (tbl_weak_short t) l
                (tbl_weak_interior t) (tbl_dependent t).

Definition set_tbl_dependent (l : list (Object * Object)) (t : HandleTable) : HandleTable :=
  mkHandleTable (tbl_strong t) (tbl_pinned t) (tbl_weak_short t)
                (tbl_weak_long t) (tbl_weak_interior t) l.

(** ** Dependent handle promotion *)

(** Modelled from the spec: one walk of the dependent handles, in table
    order.  "For each pair whose primary is reachable (has been marked) and
    whose secondary has not yet been promoted, promote the secondary by
    reporting it to the promotion callback as a root."  The result carries
    the table, the heap and whether anything was reported. *)
Fixpoint dh_promotion_walk (fn : promote_func) (sc : ScanContext)
    (pairs : list (Object * Object)) (h : GCHeap)
    : list (Object * Object) * GCHeap * bool :=
  match pairs with
  | [] => ([], h, false)
  | (p, s) :: rest =>
      if IsPromoted h p && negb (IsPromoted h s) then
        let '(s', h') := fn s sc h in
        let '(rest', h'', _) := dh_promotion_walk fn sc rest h' in
        ((p, s') :: rest', h'', true)
      else
        let '(rest', h'', promoted) := dh_promotion_walk fn sc rest h in
        ((p, s) :: rest', h'', promoted)
  end.

(** Modelled from the spec: "an unreachable-so-far primary paired with an
    as-yet-unpromoted secondary". *)
Definition dh_unresolved (h : GCHeap) (pair : Object * Object) : bool :=
  negb (IsPromoted h pair.1) && negb (IsPromoted h pair.2).

(** Modelled from the spec: [Ref_ScanDependentHandlesForPromotion] is
    defined outside gcscan.cpp.  Per the spec it performs one full walk of
    all dependent handle pairs, sets [m_fPromoted] if a secondary was newly
    promoted in this walk and sets [m_fUnpromotedPrimaries] iff a pair
    remains whose primary is unreachable so far and whose secondary is
    unpromoted; it returns whether a secondary was promoted. *)
Definition Ref_ScanDependentHandlesForPromotion (pDhContext : Z) : GC bool :=
  fun w =>
    let ctx := g_DhContexts w pDhContext in
    let r := dh_promotion_walk (m_pfnPromoteFunction ctx) (m_pScanContext ctx)
                               (tbl_dependent (g_HandleTable w)) (g_theGCHeap w) in
    let pairs' := r.1.1 in
    let h' := r.1.2 in
    let promoted := r.2 in
    let unpromoted := existsb (dh_unresolved h') pairs' in
    Returned promoted
      (log_call (Call_Ref_ScanDependentHandlesForPromotion pDhContext)
         (upd_DhContext pDhContext (set_scan_flags unpromoted promoted)
            (set_HandleTable (set_tbl_dependent pairs' (g_HandleTable w))
               (set_GCHeap h' w)))).

Definition GcDhInitialScan (fn : promote_func) (condemned max_gen : Z)
    (sc : ScanContext) : GC unit :=
  let pDhContext := Ref_GetDependentHandleContext sc in
  modify (upd_DhContext pDhContext (set_m_pfnPromoteFunction fn)) >>
  modify (upd_DhContext pDhContext (set_m_iCondemned condemned)) >>
  modify (upd_DhContext pDhContext (set_m_iMaxGen max_gen)) >>
  modify (upd_DhContext pDhContext (set_m_pScanContext sc)) >>
  let* _ := Ref_ScanDependentHandlesForPromotion pDhContext in
  ret tt.

Definition GcDhUnpromotedHandlesExist (sc : ScanContext) : GC bool :=
  let pDhContext := Ref_GetDependentHandleContext sc in
  gets (fun w => m_fUnpromotedPrimaries (g_DhContexts w pDhContext)).

Definition GcDhReScan (sc : ScanContext) : GC bool :=
  let pDhContext := Ref_GetDependentHandleContext sc in
  Ref_ScanDependentHandlesForPromotion pDhContext.

(** How the collector's loop around [GcDhReScan] ended. *)
Inductive CycleEnd : Type :=
| NoProgress      (* neither draining nor the last re-scan promoted anything *)
| NoHandlesLeft   (* [GcDhUnpromotedHandlesExist] answered false *)
| OutOfFuel.

(** Modelled from the spec: the collector's loop around [GcDhReScan] is
    outside gcscan.cpp.  [GcDhUnpromotedHandlesExist] is asked "after
    GcDhInitialScan and before each subsequent scan"; when it answers false
    the loop stops ("may skip all further dependent-handle work").
    Otherwise the loop alternates mark-stack draining and re-scan and stops
    when neither reports a promotion ("no further handles to be promoted
    or no promotions in the last scan").  The result tells how the loop
    ended within [fuel] iterations. *)
Fixpoint dh_fixed_point (fuel : nat) (sc : ScanContext) : GC CycleEnd :=
  match fuel with
  | O => ret OutOfFuel
  | S n =>
      let* unpromoted := GcDhUnpromotedHandlesExist sc in
      if negb unpromoted then ret NoHandlesLeft
      else
        let* drained := process_mark_overflow in
        let* promoted := GcDhReScan sc in
        if drained || promoted then dh_fixed_point n sc else ret NoProgress
  end.

(** Modelled from the spec: one collection cycle of the dependent handle
    scanner, the initial scan followed by the loop. *)
Definition dh_cycle (fuel : nat) (fn : promote_func) (condemned max_gen : Z)
    (sc : ScanContext) : GC CycleEnd :=
  GcDhInitialScan fn condemned max_gen sc >>
  dh_fixed_point fuel sc.


(** Transitive reachability at the start of a cycle: from what the root and
    handle scans marked, along reference fields and from the primary of a
    dependent handle to its secondary. *)
Inductive reachable (w : World) : Object → Prop :=
| reach_marked o :
    o ∈ heap_marks (g_theGCHeap w) → reachable w o
| reach_field a b :
    reachable w a → b ∈ children (heap_objects (g_theGCHeap w)) a →
    reachable w b
| reach_dependent p s :
    reachable w p → (p, s) ∈ tbl_dependent (g_HandleTable w) →
    reachable w s.

(** Objects that a cycle can newly mark. *)
Definition cycle_candidates (w : World) : gset Z :=
  field_targets (heap_objects (g_theGCHeap w))
  ∪ list_to_set ((tbl_dependent (g_HandleTable w)).*2).

(** ** Weak pointer scanning *)

(** Modelled from the spec: a handle is in the condemned range when it is
    no older than the condemned generation. *)
Definition in_condemned_range (condemned : Z) (slot : HandleSlot) : bool :=
  (hnd_age slot <=? condemned)%Z.

(** Modelled from the spec: [clearIfDead] "nulls the slot's stored reference
    if the liveness test says the referent is unreachable". *)
Definition clear_if_dead (h : GCHeap) (condemned : Z) (slot : HandleSlot) : HandleSlot :=
  if in_condemned_range condemned slot && negb (IsPromoted h (hnd_ref slot))
  then mkHandleSlot (hnd_age slot) NULL
  else slot.

(** Modelled from the spec: [Ref_CheckReachable] is outside gcscan.cpp; "for every
    long-weak handle in the condemned range, clears it if the referent is
    dead". *)
Definition Ref_CheckReachable (condemned max_gen : Z) (sc : ScanContext) : GC unit :=
  call (Call_Ref_CheckReachable condemned max_gen sc) >>
  modify (fun w =>
    let t := g_HandleTable w in
    set_HandleTable
      (set_tbl_weak_long (clear_if_dead (g_theGCHeap w) condemned <$> tbl_weak_long t) t)
      w).

(** Modelled from the spec: both sides of a pair whose primary is dead are
    cleared. *)
Definition clear_dependent (h : GCHeap) (pair : Object * Object) : Object * Object :=
  if negb (IsPromoted h pair.1) then (NULL, NULL) else pair.

(** Modelled from the spec: [Ref_ScanDependentHandlesForClearing] is outside
    gcscan.cpp; the "secondary must be cleared once its primary is confirmed dead"
    and "both slots are later cleared by the weak-clearing pass". *)
Definition Ref_ScanDependentHandlesForClearing (condemned max_gen : Z)
    (sc : ScanContext) : GC unit :=
  call (Call_Ref_ScanDependentHandlesForClearing condemned max_gen sc) >>
  modify (fun w =>
    let t := g_HandleTable w in
    set_HandleTable
      (set_tbl_dependent (clear_dependent (g_theGCHeap w) <$> tbl_dependent t) t)
      w).

Definition GcWeakPtrScan (condemned max_gen : Z) (sc : ScanContext) : GC unit :=
  Ref_CheckReachable condemned max_gen sc >>
  Ref_ScanDependentHandlesForClearing condemned max_gen sc.

(** ** The synchronization-block cache *)

(** [HANDLESCANPROC]: a visitor receives the address of a slot, here the
    index of the reference in the cache, and the two scan parameters. *)
Definition HANDLESCANPROC : Type := nat → Z → ScanContext → Z → GC unit.

(** [*pRef]: reading through a slot address; outside the cache (undefined in
    the C++) this reads [NULL]. *)
Definition load_ref (pRef : nat) : GC Object :=
  gets (fun w => default NULL (g_SyncBlockCache w !! pRef)).

(** [*pRef = v]: writing through a slot address. *)
Definition store_ref (pRef : nat) (v : Object) : GC unit :=
  modify (fun w => set_SyncBlockCache (<[pRef := v]> (g_SyncBlockCache w)) w).

Definition CheckPromoted (pObjRef : nat) (pExtraInfo : Z) (lp1 : ScanContext)
    (lp2 : Z) : GC unit :=
  let pRef := pObjRef in
  let* ref := load_ref pRef in
  let* promoted := gets (fun w => IsPromoted (g_theGCHeap w) ref) in
  if negb promoted then store_ref pRef NULL else ret tt.

Fixpoint for_each {A} (l : list A) (body : A → GC unit) : GC unit :=
  match l with
  | [] => ret tt
  | x :: rest => body x >> for_each rest body
  end.

(** Modelled from the spec: [GCToEEInterface::SyncBlockCacheWeakPtrScan] is
    outside gcscan.cpp; [weakScan(callback)] passes every reference the cache holds
    to the visitor, once. *)
Definition SyncBlockCacheWeakPtrScan (scanProc : HANDLESCANPROC)
    (lp1 : ScanContext) (lp2 : Z) : GC unit :=
  call (Call_SyncBlockCacheWeakPtrScan lp1 lp2) >>
  let* n := gets (fun w => length (g_SyncBlockCache w)) in
  for_each (seq 0 n) (fun i => scanProc i 0%Z lp1 lp2).

Definition GcWeakPtrScanBySingleThread (condemned max_gen : Z)
    (sc : ScanContext) : GC unit :=
  SyncBlockCacheWeakPtrScan CheckPromoted sc 0%Z.

(** The indices of the references a scan severed. *)
Definition cleared_refs (before after : list Object) : list nat :=
  filter (fun i => bool_decide (before !! i ≠ after !! i)) (seq 0 (length before)).

(** ** Handle roots *)

(** Modelled from the spec: a walk of one single-reference category hands
    every slot in the condemned range to the callback, which may rewrite
    it. *)
Fixpoint scan_slots (fn : promote_func) (condemned : Z) (sc : ScanContext)
    (slots : list HandleSlot) (h : GCHeap) : list HandleSlot * GCHeap :=
  match slots with
  | [] => ([], h)
  | slot :: rest =>
      if in_condemned_range condemned slot then
        let '(r, h') := fn (hnd_ref slot) sc h in
        let '(rest', h'') := scan_slots fn condemned sc rest h' in
        (mkHandleSlot (hnd_age slot) r :: rest', h'')
      else
        let '(rest', h'') := scan_slots fn condemned sc rest h in
        (slot :: rest', h'')
  end.

(** Modelled from the spec: the relocation walk of the dependent handles
    hands both sides of every pair to the callback. *)
Fixpoint scan_pairs (fn : promote_func) (sc : ScanContext)
    (pairs : list (Object * Object)) (h : GCHeap)
    : list (Object * Object) * GCHeap :=
  match pairs with
  | [] => ([], h)
  | (p, s) :: rest =>
      let '(p', h1) := fn p sc h in
      let '(s', h2) := fn s sc h1 in
      let '(rest', h3) := scan_pairs fn sc rest h2 in
      ((p', s') :: rest', h3)
  end.

(** Runs a walk over the category selected by [get] and [set]. *)
Definition walk_category {A} (get : HandleTable → list A)
    (set : list A → HandleTable → HandleTable)
    (walk : list A → GCHeap → list A * GCHeap) : GC unit :=
  modify (fun w =>
    let r := walk (get (g_HandleTable w)) (g_theGCHeap w) in
    set_GCHeap r.2 (set_HandleTable (set r.1 (g_HandleTable w)) w)).

(** Modelled from the spec: [Ref_TracePinningRoots] is outside gcscan.cpp; it
    reports the referents of the pinning category to the callback as
    roots. *)
Definition Ref_TracePinningRoots (condemned max_gen : Z) (sc : ScanContext)
    (fn : promote_func) : GC unit :=
  call (Call_Ref_TracePinningRoots condemned max_gen sc) >>
  walk_category tbl_pinned set_tbl_pinned (scan_slots fn condemned sc).

(** Modelled from the spec: [Ref_TraceNormalRoots] is outside gcscan.cpp; it
    reports the referents of the normal-root category to the callback as
    roots. *)
Definition Ref_TraceNormalRoots (condemned max_gen : Z) (sc : ScanContext)
    (fn : promote_func) : GC unit :=
  call (Call_Ref_TraceNormalRoots condemned max_gen sc) >>
  walk_category tbl_strong set_tbl_strong (scan_slots fn condemned sc).

(** Modelled from the spec: [Ref_UpdatePointers] is outside gcscan.cpp; it lets
    the callback rewrite the stored pointers of the weak and normal-root
    categories. *)
Definition Ref_UpdatePointers (condemned max_gen : Z) (sc : ScanContext)
    (fn : promote_func) : GC unit :=
  call (Call_Ref_UpdatePointers condemned max_gen sc) >>
  walk_category tbl_weak_short set_tbl_weak_short (scan_slots fn condemned sc) >>
  walk_category tbl_weak_long set_tbl_weak_long (scan_slots fn condemned sc) >>
  walk_category tbl_strong set_tbl_strong (scan_slots fn condemned sc).

(** Modelled from the spec: [Ref_UpdatePinnedPointers] is outside gcscan.cpp; it
    lets the callback rewrite the stored pointers of the pinning category. *)
Definition Ref_UpdatePinnedPointers (condemned max_gen : Z) (sc : ScanContext)
    (fn : promote_func) : GC unit :=
  call (Call_Ref_UpdatePinnedPointers condemned max_gen sc) >>
  walk_category tbl_pinned set_tbl_pinned (scan_slots fn condemned sc).

(** Modelled from the spec: [Ref_ScanDependentHandlesForRelocation] is
    outside gcscan.cpp; it runs "dependent-handle relocation". *)
Definition Ref_ScanDependentHandlesForRelocation (condemned max_gen : Z)
    (sc : ScanContext) (fn : promote_func) : GC unit :=
  call (Call_Ref_ScanDependentHandlesForRelocation condemned max_gen sc) >>
  walk_category tbl_dependent set_tbl_dependent (scan_pairs fn sc).

(** Modelled from the spec: [Ref_ScanWeakInteriorPointersForRelocation] is
    outside gcscan.cpp; it runs "weak-interior-pointer relocation". *)
Definition Ref_ScanWeakInteriorPointersForRelocation (condemned max_gen : Z)
    (sc : ScanContext) (fn : promote_func) : GC unit :=
  call (Call_Ref_ScanWeakInteriorPointersForRelocation condemned max_gen sc) >>
  walk_category tbl_weak_interior set_tbl_weak_interior (scan_slots fn condemned sc).

Definition GcScanHandles (fn : promote_func) (condemned max_gen : Z)
    (sc : ScanContext) : GC unit :=
  if promotion sc then
    Ref_TracePinningRoots condemned max_gen sc fn >>
    Ref_TraceNormalRoots condemned max_gen sc fn
  else
    Ref_UpdatePointers condemned max_gen sc fn >>
    Ref_UpdatePinnedPointers condemned max_gen sc fn >>
    Ref_ScanDependentHandlesForRelocation condemned max_gen sc fn >>
    Ref_ScanWeakInteriorPointersForRelocation condemned max_gen sc fn.

(** The calls that walk the table to mark. *)
Definition is_marking_call (c : Call) : bool :=
  match c with
  | Call_Ref_TracePinningRoots _ _ _ | Call_Ref_TraceNormalRoots _ _ _
  | Call_Ref_ScanDependentHandlesForPromotion _ => true
  | _ => false
  end.

(** ** Promotion and demotion notices *)

(** Modelled from the spec: [IsServerHeap()] is declared outside gcscan.cpp; it
    tells "multi-heap mode" from "single-heap mode", a configuration of the
    process. *)
Definition IsServerHeap : GC bool := gets g_IsServerHeap.

(** Modelled from the spec: [Ref_RejuvenateHandles] is outside gcscan.cpp; it
    resets generation bookkeeping that this embedding does not carry, so
    what is kept of it is the call itself. *)
Definition Ref_RejuvenateHandles (condemned max_gen : Z) (sc : ScanContext) : GC unit :=
  call (Call_Ref_RejuvenateHandles condemned max_gen sc).

(** Modelled from the spec: [Ref_AgeHandles] is outside gcscan.cpp; it ages
    handles, bookkeeping that this embedding does not carry, so what is
    kept of it is the call itself. *)
Definition Ref_AgeHandles (condemned max_gen : Z) (sc : ScanContext) : GC unit :=
  call (Call_Ref_AgeHandles condemned max_gen sc).

(** Modelled from the spec: [GCToEEInterface::SyncBlockCacheDemote] is
    outside gcscan.cpp; the notification is kept as the call itself. *)
Definition SyncBlockCacheDemote (max_gen : Z) : GC unit :=
  call (Call_SyncBlockCacheDemote max_gen).

(** Modelled from the spec: [GCToEEInterface::SyncBlockCachePromotionsGranted]
    is outside gcscan.cpp; the notification is kept as the call itself. *)
Definition SyncBlockCachePromotionsGranted (max_gen : Z) : GC unit :=
  call (Call_SyncBlockCachePromotionsGranted max_gen).

Definition GcDemote (condemned max_gen : Z) (sc : ScanContext) : GC unit :=
  Ref_RejuvenateHandles condemned max_gen sc >>
  let* server := IsServerHeap in
  if negb server || (thread_number sc =? 0)%Z
  then SyncBlockCacheDemote max_gen
  else ret tt.

Definition GcPromotionsGranted (condemned max_gen : Z) (sc : ScanContext) : GC unit :=
  Ref_AgeHandles condemned max_gen sc >>
  let* server := IsServerHeap in
  if negb server || (thread_number sc =? 0)%Z
  then SyncBlockCachePromotionsGranted max_gen
  else ret tt.

(** A run in which each worker, in the order of the list, makes the call
    with its own scan context. *)
Definition each_worker (notice : ScanContext → GC unit)
    (workers : list ScanContext) : GC unit :=
  for_each workers notice.

Definition is_PromotionsGranted (c : Call) : bool :=
  match c with Call_SyncBlockCachePromotionsGranted _ => true | _ => false end.

Definition is_Demote (c : Call) : bool :=
  match c with Call_SyncBlockCacheDemote _ => true | _ => false end.

(** The calls a routine adds to the log, or [None] when it does not return. *)
Definition calls_made {A} (m : GC A) (w : World) : option (list Call) :=
  match m w with
  | Returned _ w' => Some (drop (length (g_Calls w)) (g_Calls w'))
  | AssertFailed _ => None
  end.

(** What holds of a cycle under way that began in [w0] and runs on the
    context [p] with the promotion callback: the object graph and the table
    are those of [w0], and the marks have grown from those of [w0] by
    reachable candidates only. *)
Definition cycle_inv (w0 : World) (p : Z) (w : World) : Prop :=
  heap_objects (g_theGCHeap w) = heap_objects (g_theGCHeap w0)
  ∧ tbl_dependent (g_HandleTable w) = tbl_dependent (g_HandleTable w0)
  ∧ m_pfnPromoteFunction (g_DhContexts w p) = GCHeap_Promote
  ∧ heap_marks (g_theGCHeap w0) ⊆ heap_marks (g_theGCHeap w)
  ∧ heap_marks (g_theGCHeap w)
    ⊆ heap_marks (g_theGCHeap w0) ∪ cycle_candidates w0
  ∧ ∀ o, o ∈ heap_marks (g_theGCHeap w) → reachable w0 o.

(** The flag of the context [p] tells what the table holds now: some pair
    with an unmarked primary and an unmarked secondary. *)
Definition flag_current (p : Z) (w : World) : Prop :=
  m_fUnpromotedPrimaries (g_DhContexts w p)
  = existsb (dh_unresolved (g_theGCHeap w)) (tbl_dependent (g_HandleTable w)).

(** A fixed point: neither tracing nor a walk of the dependent handles has
    anything left to mark. *)
Definition cycle_closed (w : World) : Prop :=
  mark_round (heap_objects (g_theGCHeap w)) (heap_marks (g_theGCHeap w))
  = heap_marks (g_theGCHeap w)
  ∧ ∀ p s, (p, s) ∈ tbl_dependent (g_HandleTable w) →
      p ∈ heap_marks (g_theGCHeap w) → s ∈ heap_marks (g_theGCHeap w).

(** How many calls of a log satisfy [p]. *)
Fixpoint count_calls (p : Call → bool) (l : list Call) : nat :=
  match l with
  | [] => 0
  | c :: rest => (if p c then 1 else 0) + count_calls p rest
  end.

(** What one worker's notice adds to the log: the bookkeeping call and,
    when the worker is the designated one, the notification. *)
Definition notice_calls (server : bool) (bookkeeping : ScanContext → Call)
    (notification : Call) (sc : ScanContext) : list Call :=
  bookkeeping sc ::
  (if negb server || (thread_number sc =? 0)%Z then [notification] else []).

(** ** Scenarios *)

(** [n] times [GcRuntimeStructuresValid(FALSE)], then [n] times
    [GcRuntimeStructuresValid(TRUE)]. *)
Definition invalid_then_valid (n : nat) : GC unit :=
  gate_calls (replicate n false ++ replicate n true).

Definition no_heap : GCHeap := mkGCHeap ∅ ∅ 0 ∅.
Definition no_handles : HandleTable := mkHandleTable [] [] [] [] [] [].
Definition idle_DhContext : DhContext :=
  mkDhContext GCHeap_Relocate 0 0 (mkScanContext 0 false) false false.

(** The process right after static initialization, with nothing allocated. *)
Definition boot_world : World :=
  static_init no_heap no_handles (fun _ => idle_DhContext) [] false.

(** A table with a chain placed against the walk order (the secondary of
    the second pair is the primary of the first), a pair whose primary is
    never reached and an object graph the mark stack cannot trace at once. *)
Definition chain_world : World :=
  static_init
    (mkGCHeap {[4%Z := [5%Z]]} {[1%Z]} 0 ∅)
    (mkHandleTable [] [] [] [] [] [(3, 4); (1, 3); (7, 8)]%Z)
    (fun _ => idle_DhContext) [] false.

(** A chain placed against the walk order and nothing else. *)
Definition short_chain_world : World :=
  static_init
    (mkGCHeap ∅ {[1%Z]} 0 ∅)
    (mkHandleTable [] [] [] [] [] [(3, 4); (1, 3)]%Z)
    (fun _ => idle_DhContext) [] false.


(** Handles of several categories and ages, a cache of three references;
    only object 10 is marked. *)
Definition handles_world : World :=
  static_init
    (mkGCHeap ∅ {[10%Z]} 0 {[10%Z := 110%Z]})
    (mkHandleTable
       [mkHandleSlot 0 30%Z] [mkHandleSlot 1 40%Z] []
       [mkHandleSlot 0 10%Z; mkHandleSlot 0 20%Z; mkHandleSlot 2 20%Z] []
       [(10, 11); (20, 21)]%Z)
    (fun _ => idle_DhContext) [10; 20; 0]%Z false.

(** The same cache next to a different heap that agrees on the referents. *)
Definition other_handles_world : World :=
  static_init
    (mkGCHeap {[10%Z := [77%Z]]} {[10%Z; 77%Z]} 3 ∅)
    no_handles (fun _ => idle_DhContext) [10; 20; 0]%Z true.

(** A process with several heaps. *)
Definition server_world : World :=
  static_init no_heap no_handles (fun _ => idle_DhContext) [] true.

Definition three_workers : list ScanContext :=
  [mkScanContext 2 true; mkScanContext 0 true; mkScanContext 1 true].

(** ** The remaining entry points of [GCScan] *)

(** The entry points below hand their arguments to a collaborator that is
    defined outside gcscan.cpp; the collaborators are parameters. *)
Section Collaborators.
Variable R : Type.
Variable handle_scan_fn : Type.
Variable Ref_ScanSizedRefHandles : Z → Z → ScanContext → promote_func → GC unit.
Variable Ref_CheckAlive : Z → Z → ScanContext → GC unit.
Variable GCToEEInterface_GcScanRoots : promote_func → Z → Z → ScanContext → GC unit.
Variable Ref_ScanBridgeObjects : Z → Z → ScanContext → GC R.
Variable Ref_ScanHandlesForProfilerAndETW : Z → ScanContext → handle_scan_fn → GC unit.
Variable Ref_ScanDependentHandlesForProfilerAndETW :
  Z → ScanContext → handle_scan_fn → GC unit.
Variable Ref_VerifyHandleTable : Z → Z → ScanContext → GC unit.

(** Whether [GC_PROFILING] and [FEATURE_EVENT_TRACE] are defined. *)
Variable GC_PROFILING : bool.
Variable FEATURE_EVENT_TRACE : bool.

Definition GcScanSizedRefs (fn : promote_func) (condemned max_gen : Z)
    (sc : ScanContext) : GC unit :=
  Ref_ScanSizedRefHandles condemned max_gen sc fn.

Definition GcShortWeakPtrScan (condemned max_gen : Z) (sc : ScanContext) : GC unit :=
  Ref_CheckAlive condemned max_gen sc.

Definition GcScanRoots (fn : promote_func) (condemned max_gen : Z)
    (sc : ScanContext) : GC unit :=
  GCToEEInterface_GcScanRoots fn condemned max_gen sc.

(** The result stands for the returned array together with what the
    collaborator stores through [numObjs]. *)
Definition GcProcessBridgeObjects (condemned max_gen : Z) (sc : ScanContext) : GC R :=
  _ASSERTE (promotion sc) >>
  let* bridgeObjectsToPromote := Ref_ScanBridgeObjects condemned max_gen sc in
  ret bridgeObjectsToPromote.

Definition GcScanHandlesForProfilerAndETW (max_gen : Z) (sc : ScanContext)
    (fn : handle_scan_fn) : GC unit :=
  if GC_PROFILING || FEATURE_EVENT_TRACE
  then Ref_ScanHandlesForProfilerAndETW max_gen sc fn
  else ret tt.

Definition GcScanDependentHandlesForProfilerAndETW (max_gen : Z)
    (sc : ScanContext) (fn : handle_scan_fn) : GC unit :=
  if GC_PROFILING || FEATURE_EVENT_TRACE
  then Ref_ScanDependentHandlesForProfilerAndETW max_gen sc fn
  else ret tt.

Definition VerifyHandleTable (condemned max_gen : Z) (sc : ScanContext) : GC unit :=
  Ref_VerifyHandleTable condemned max_gen sc.
End Collaborators.

(** ** Counting *)

(** Windows opened minus windows closed by a sequence of
    [GcRuntimeStructuresValid] calls. *)
Fixpoint net_windows (flags : list bool) : Z :=
  match flags with
  | [] => 0
  | b :: rest => (if b then -1 else 1) + net_windows rest
  end.

Definition is_AgeHandles (c : Call) : bool :=
  match c with Call_Ref_AgeHandles _ _ _ => true | _ => false end.

Definition is_RejuvenateHandles (c : Call) : bool :=
  match c with Call_Ref_RejuvenateHandles _ _ _ => true | _ => false end.

(** The chain scenario with the promotion callback already recorded in
    every context. *)
Definition marking_DhContext : DhContext :=
  mkDhContext GCHeap_Promote 0 2 (mkScanContext 0 true) false false.

Definition marking_chain_world : World :=
  set_DhContexts (fun _ => marking_DhContext) chain_world.

(** The chain scenario with long-weak handles to a reachable object, to an
    unreachable one and, out of the condemned range, to an unreachable one. *)
Definition weak_chain_world : World :=
  set_HandleTable
    (mkHandleTable [] [] []
       [mkHandleSlot 0 4%Z; mkHandleSlot 0 8%Z; mkHandleSlot 2 8%Z] []
       [(3, 4); (1, 3); (7, 8)]%Z)
    chain_world.

(** * Exception trackers (src/coreclr/vm/exceptionhandling.h) *)

Module EH.

(** [BOOL] *)
Definition FALSE : Z := 0.
Definition TRUE : Z := 1.

(** The field of [EXCEPTION_RECORD] that the header reads. *)
Record EXCEPTION_RECORD : Type := mkEXCEPTION_RECORD {
  ExceptionCode : Z
}.

(** [ExceptionTrackerBase], with the members that the inline methods of the
    header read or write.  A [PTR_EXCEPTION_RECORD] is [None] when it is
    [PTR_NULL]; the other pointers and the handle are addresses, 0 for
    null. *)
Record ExceptionTrackerBase : Type := mkExceptionTrackerBase {
  m_pPrevNestedInfo : Z;
  m_hThrowable : Z;
  m_ptrs : option EXCEPTION_RECORD * Z;
  m_fDeliveredFirstChanceNotification : Z;
  m_ExceptionCode : Z
}.

(** The constructor of [ExceptionTrackerBase]. *)
Definition ExceptionTrackerBase_new (pExceptionRecord : option EXCEPTION_RECORD)
    (pExceptionContext : Z) (pPrevNestedInfo : Z) : ExceptionTrackerBase :=
  mkExceptionTrackerBase
    pPrevNestedInfo
    0
    (pExceptionRecord, pExceptionContext)
    FALSE
    (match pExceptionRecord with
     | Some record => ExceptionCode record
     | None => 0
     end).

(** The base part of a default-constructed [ExceptionTracker]. *)
Definition ExceptionTracker_default : ExceptionTrackerBase :=
  ExceptionTrackerBase_new None 0 0.

Definition GetPreviousExceptionTracker (this : ExceptionTrackerBase) : Z :=
  m_pPrevNestedInfo this.

Definition DeliveredFirstChanceNotification (this : ExceptionTrackerBase) : Z :=
  m_fDeliveredFirstChanceNotification this.

Definition SetFirstChanceNotificationStatus (fDelivered : Z)
    (this : ExceptionTrackerBase) : ExceptionTrackerBase :=
  mkExceptionTrackerBase (m_pPrevNestedInfo this) (m_hThrowable this)
    (m_ptrs this) fDelivered (m_ExceptionCode this).

Definition GetExceptionCode (this : ExceptionTrackerBase) : Z :=
  m_ExceptionCode this.

Definition GetThrowableAsHandle (this : ExceptionTrackerBase) : Z :=
  m_hThrowable this.

Definition set_m_hThrowable (h : Z) (this : ExceptionTrackerBase)
    : ExceptionTrackerBase :=
  mkExceptionTrackerBase (m_pPrevNestedInfo this) h (m_ptrs this)
    (m_fDeliveredFirstChanceNotification this) (m_ExceptionCode this).

(** The handle table behind [ObjectFromHandle], [DestroyHandle] and
    [CLRException::IsPreallocatedExceptionHandle] is declared outside this
    header; it is a parameter. *)
Section Handles.
Variable HandleStore : Type.
Variable ObjectFromHandle : Z → HandleStore → Object.
Variable IsPreallocatedExceptionHandle : Z → bool.
Variable DestroyHandle : Z → HandleStore → HandleStore.

Definition GetThrowable (this : ExceptionTrackerBase) (store : HandleStore) : Object :=
  if bool_decide (0%Z ≠ m_hThrowable this)
  then ObjectFromHandle (m_hThrowable this) store
  else NULL.

Definition DestroyExceptionHandle (this : ExceptionTrackerBase)
    (store : HandleStore) : ExceptionTrackerBase * HandleStore :=
  let store' :=
    if bool_decide (m_hThrowable this ≠ 0%Z)
       && negb (IsPreallocatedExceptionHandle (m_hThrowable this))
    then DestroyHandle (m_hThrowable this) store
    else store in
  (set_m_hThrowable 0 this, store').
End Handles.

(** [InlinedCallFrameMarker], by the width of the host. *)
Definition ExceptionHandlingHelper (HOST_64BIT : bool) : Z :=
  if HOST_64BIT then 2 else 1.
Definition SecondPassFuncletCaller (HOST_64BIT : bool) : Z :=
  if HOST_64BIT then 4 else 2.
Definition Mask (HOST_64BIT : bool) : Z :=
  Z.lor (ExceptionHandlingHelper HOST_64BIT) (SecondPassFuncletCaller HOST_64BIT).

(** [TrackerAllocator]: the page size and the number of trackers of a page,
    from [sizeof(PageHeader)] and [sizeof(ExceptionTracker)]. *)
Definition TRACKER_ALLOCATOR_PAGE_SIZE : Z := 8 * 1024.
Definition NUM_TRACKERS_PER_PAGE (sizeof_PageHeader sizeof_ExceptionTracker : Z) : Z :=
  ((TRACKER_ALLOCATOR_PAGE_SIZE - sizeof_PageHeader) / sizeof_ExceptionTracker)%Z.

(** A handle table for the scenarios: handle 7 is preallocated. *)
Definition example_store : gmap Z Z := {[7%Z := 70%Z; 9%Z := 90%Z]}.
Definition example_ObjectFromHandle (h : Z) (store : gmap Z Z) : Object :=
  default NULL (store !! h).
Definition example_IsPreallocated (h : Z) : bool := bool_decide (h = 7%Z).
Definition example_DestroyHandle (h : Z) (store : gmap Z Z) : gmap Z Z :=
  delete h store.

End EH.

(** * Properties *)

(** ** Machine integers *)

Lemma Int32_wrap_in_range z : Int32.in_range z → Int32.wrap z = z.
Proof.
  unfold Int32.in_range, Int32.wrap, Int32.min_signed, Int32.max_signed,
    Int32.modulus.
  intros H. rewrite Z.mod_small; lia.
Qed.

Lemma Int32_wrap_range z : Int32.in_range (Int32.wrap z).
Proof.
  unfold Int32.in_range, Int32.wrap, Int32.min_signed, Int32.max_signed,
    Int32.modulus.
  pose proof (Z.mod_pos_bound (z - -2147483648) 4294967296). lia.
Qed.

(** ** The validity gate *)

Lemma GetGcRuntimeStructuresValid_eq w :
  GetGcRuntimeStructuresValid w =
  if (0 <=? m_GcStructuresInvalidCnt w)%Z
  then Returned (m_GcStructuresInvalidCnt w =? 0)%Z w
  else AssertFailed w.
Proof.
  unfold GetGcRuntimeStructuresValid, bind, gets, _ASSERTE, ret.
  by destruct (0 <=? m_GcStructuresInvalidCnt w)%Z.
Qed.

Lemma GcRuntimeStructuresValid_invalid w :
  GcRuntimeStructuresValid false w =
  let r := Int32.wrap (m_GcStructuresInvalidCnt w + 1) in
  if (0 <? r)%Z then Returned tt (set_InvalidCnt r w)
  else AssertFailed (set_InvalidCnt r w).
Proof. reflexivity. Qed.

Lemma GcRuntimeStructuresValid_valid w :
  GcRuntimeStructuresValid true w =
  let r := Int32.wrap (m_GcStructuresInvalidCnt w - 1) in
  if (0 <=? r)%Z then Returned tt (set_InvalidCnt r w)
  else AssertFailed (set_InvalidCnt r w).
Proof. reflexivity. Qed.

(** A call that returns leaves the counter in [0, INT32_MAX]. *)
Lemma GcRuntimeStructuresValid_returns b w w' :
  GcRuntimeStructuresValid b w = Returned tt w' →
  (0 ≤ m_GcStructuresInvalidCnt w' ≤ Int32.max_signed)%Z.
Proof.
  destruct b.
  - rewrite GcRuntimeStructuresValid_valid. cbv zeta.
    pose proof (Int32_wrap_range (m_GcStructuresInvalidCnt w - 1)) as [_ Hr].
    destruct (Z.leb_spec 0 (Int32.wrap (m_GcStructuresInvalidCnt w - 1)));
      intros [= <-]; simpl; lia.
  - rewrite GcRuntimeStructuresValid_invalid. cbv zeta.
    pose proof (Int32_wrap_range (m_GcStructuresInvalidCnt w + 1)) as [_ Hr].
    destruct (Z.ltb_spec 0 (Int32.wrap (m_GcStructuresInvalidCnt w + 1)));
      intros [= <-]; simpl; lia.
Qed.

Lemma gate_calls_cons b flags w :
  gate_calls (b :: flags) w =
  match GcRuntimeStructuresValid b w with
  | Returned _ w' => gate_calls flags w'
  | AssertFailed w' => AssertFailed w'
  end.
Proof. reflexivity. Qed.

Lemma gate_calls_app f1 f2 w :
  gate_calls (f1 ++ f2) w =
  match gate_calls f1 w with
  | Returned _ w' => gate_calls f2 w'
  | AssertFailed w' => AssertFailed w'
  end.
Proof.
  revert w. induction f1 as [|b f1 IH]; intros w; [done|].
  rewrite <- app_comm_cons, !gate_calls_cons.
  destruct (GcRuntimeStructuresValid b w); [apply IH | done].
Qed.

Lemma gate_calls_invariant flags w w' :
  (0 ≤ m_GcStructuresInvalidCnt w ≤ Int32.max_signed)%Z →
  gate_calls flags w = Returned tt w' →
  (0 ≤ m_GcStructuresInvalidCnt w' ≤ Int32.max_signed)%Z.
Proof.
  revert w. induction flags as [|b flags IH]; intros w Hw.
  - by intros [= <-].
  - rewrite gate_calls_cons.
    destruct (GcRuntimeStructuresValid b w) as [[] w1|] eqn:E; [|done].
    apply IH. by eapply GcRuntimeStructuresValid_returns.
Qed.

(** [n] nested invalidations succeed as long as the counter fits. *)
Lemma gate_calls_invalid n w :
  (0 ≤ m_GcStructuresInvalidCnt w)%Z →
  (m_GcStructuresInvalidCnt w + Z.of_nat n ≤ Int32.max_signed)%Z →
  gate_calls (replicate n false) w =
  Returned tt (set_InvalidCnt (m_GcStructuresInvalidCnt w + Z.of_nat n) w).
Proof.
  revert w. induction n as [|n IH]; intros w H0 Hn.
  - simpl. unfold ret. destruct w; simpl. by rewrite Z.add_0_r.
  - change (replicate (S n) false) with (false :: replicate n false).
    rewrite gate_calls_cons, GcRuntimeStructuresValid_invalid. cbv zeta.
    rewrite Int32_wrap_in_range
      by (unfold Int32.in_range, Int32.min_signed, Int32.max_signed in *; lia).
    destruct (Z.ltb_spec 0 (m_GcStructuresInvalidCnt w + 1)); [|lia].
    rewrite IH by (simpl; lia). simpl. unfold set_InvalidCnt; simpl.
    do 2 f_equal. lia.
Qed.

(** [n] matching validations succeed and give the counter back. *)
Lemma gate_calls_valid n w :
  (Z.of_nat n ≤ m_GcStructuresInvalidCnt w ≤ Int32.max_signed)%Z →
  gate_calls (replicate n true) w =
  Returned tt (set_InvalidCnt (m_GcStructuresInvalidCnt w - Z.of_nat n) w).
Proof.
  revert w. induction n as [|n IH]; intros w Hn.
  - simpl. unfold ret. destruct w; simpl. by rewrite Z.sub_0_r.
  - change (replicate (S n) true) with (true :: replicate n true).
    rewrite gate_calls_cons, GcRuntimeStructuresValid_valid. cbv zeta.
    rewrite Int32_wrap_in_range
      by (unfold Int32.in_range, Int32.min_signed, Int32.max_signed in *; lia).
    destruct (Z.leb_spec 0 (m_GcStructuresInvalidCnt w - 1)); [|lia].
    rewrite IH by (simpl; lia). simpl. unfold set_InvalidCnt; simpl.
    do 2 f_equal. lia.
Qed.

Lemma invalid_then_valid_restores n w :
  (0 ≤ m_GcStructuresInvalidCnt w)%Z →
  (m_GcStructuresInvalidCnt w + Z.of_nat n ≤ Int32.max_signed)%Z →
  invalid_then_valid n w = Returned tt w.
Proof.
  intros H0 Hn. unfold invalid_then_valid.
  rewrite gate_calls_app, gate_calls_invalid by done.
  rewrite gate_calls_valid by (simpl; lia).
  destruct w; unfold set_InvalidCnt; simpl. do 2 f_equal. lia.
Qed.

(** One invalidation more than [INT32_MAX] wraps the counter and trips the
    assertion of the invalidating call. *)
Lemma invalid_overflow w :
  m_GcStructuresInvalidCnt w = 0%Z →
  ∃ w', gate_calls (replicate (Z.to_nat Int32.max_signed + 1) false) w
        = AssertFailed w'.
Proof.
  intros Hw.
  rewrite replicate_add, gate_calls_app, gate_calls_invalid
    by (rewrite ?Hw, ?Z2Nat.id; done).
  rewrite Hw, Z2Nat.id by done. eexists. reflexivity.
Qed.

(** The calls of a sequence all return exactly when the sequence is
    balanced. *)
Lemma gate_calls_balanced flags : ∀ w,
  (0 ≤ m_GcStructuresInvalidCnt w ≤ Int32.max_signed)%Z →
  balanced (m_GcStructuresInvalidCnt w) flags = true
  ↔ ∃ w', gate_calls flags w = Returned tt w'.
Proof.
  induction flags as [|b flags IH]; intros w Hw.
  - split; [by exists w | done].
  - rewrite gate_calls_cons. destruct b; cbn [balanced].
    + rewrite GcRuntimeStructuresValid_valid. cbv zeta.
      rewrite Int32_wrap_in_range
        by (unfold Int32.in_range, Int32.min_signed, Int32.max_signed in *; lia).
      destruct (Z.ltb_spec 0 (m_GcStructuresInvalidCnt w));
        destruct (Z.leb_spec 0 (m_GcStructuresInvalidCnt w - 1)); try lia.
      * rewrite andb_true_l.
        apply (IH (set_InvalidCnt (m_GcStructuresInvalidCnt w - 1) w)).
        simpl. lia.
      * split; [done | by intros [w' ?]].
    + rewrite GcRuntimeStructuresValid_invalid. cbv zeta.
      destruct (Z.ltb_spec (m_GcStructuresInvalidCnt w) Int32.max_signed).
      * rewrite Int32_wrap_in_range
          by (unfold Int32.in_range, Int32.min_signed, Int32.max_signed in *; lia).
        destruct (Z.ltb_spec 0 (m_GcStructuresInvalidCnt w + 1)); [|lia].
        rewrite andb_true_l.
        apply (IH (set_InvalidCnt (m_GcStructuresInvalidCnt w + 1) w)).
        simpl. lia.
      * assert (m_GcStructuresInvalidCnt w = Int32.max_signed) as -> by lia.
        split; [done | by intros [w' ?]].
Qed.

(** C3. The counter [m_GcStructuresInvalidCnt] starts at 1.  A balanced
    sequence of [GcRuntimeStructuresValid] calls made from there returns,
    and in every state reached from there by calls none of which trips its
    assertion the counter is at least 0 and [GetGcRuntimeStructuresValid]
    returns.  In any state at all [GetGcRuntimeStructuresValid] returns true
    exactly when the counter is 0. *)
Theorem validity_counter_invariant h t d cache server flags :
  balanced 1 flags = true →
  m_GcStructuresInvalidCnt (static_init h t d cache server) = 1%Z
  ∧ (∃ w, gate_calls flags (static_init h t d cache server) = Returned tt w)
  ∧ (∀ w, gate_calls flags (static_init h t d cache server) = Returned tt w →
       (0 ≤ m_GcStructuresInvalidCnt w)%Z
       ∧ GetGcRuntimeStructuresValid w
         = Returned (m_GcStructuresInvalidCnt w =? 0)%Z w)
  ∧ ∀ w1 : World,
      GetGcRuntimeStructuresValid w1 = Returned true w1
      ↔ m_GcStructuresInvalidCnt w1 = 0%Z.
Proof.
  intros Hbal. split; [done|]. split.
  { apply gate_calls_balanced; [by compute | done]. }
  split.
  { intros w Hrun.
    apply gate_calls_invariant in Hrun as Hinv; [|by compute].
    split; [lia|]. rewrite GetGcRuntimeStructuresValid_eq.
    destruct (Z.leb_spec 0 (m_GcStructuresInvalidCnt w)); [done | lia]. }
  intros w1. rewrite GetGcRuntimeStructuresValid_eq. split.
  - destruct (0 <=? m_GcStructuresInvalidCnt w1)%Z; [|done].
    intros [= H]. by apply Z.eqb_eq.
  - by intros ->.
Qed.

Lemma validity_counter_invariant_witness :
  balanced 1 [false; true; true] = true
  ∧ ∃ w, gate_calls [false; true; true] boot_world = Returned tt w
       ∧ (0 ≤ m_GcStructuresInvalidCnt w)%Z
       ∧ GetGcRuntimeStructuresValid w = Returned true w.
Proof.
  split; [reflexivity|].
  destruct (validity_counter_invariant no_heap no_handles (fun _ => idle_DhContext)
              [] false [false; true; true] eq_refl) as (_ & _ & Hreach & _).
  eexists. split; [reflexivity|]. exact (Hreach _ eq_refl).
Defined.

(** C4. In a state whose counter is an [int32_t] above [INT32_MIN], the call
    [GcRuntimeStructuresValid(TRUE)] that would take the counter below zero
    stores the decremented counter and trips its assertion; the call that
    keeps it at zero or above returns with the counter decremented. *)
Theorem markValid_beyond_balance_is_fatal w :
  (Int32.min_signed < m_GcStructuresInvalidCnt w ≤ Int32.max_signed)%Z →
  ((m_GcStructuresInvalidCnt w - 1 < 0)%Z →
     GcRuntimeStructuresValid true w
     = AssertFailed (set_InvalidCnt (m_GcStructuresInvalidCnt w - 1) w))
  ∧ ((0 ≤ m_GcStructuresInvalidCnt w - 1)%Z →
     GcRuntimeStructuresValid true w
     = Returned tt (set_InvalidCnt (m_GcStructuresInvalidCnt w - 1) w)).
Proof.
  intros Hr. rewrite GcRuntimeStructuresValid_valid. cbv zeta.
  rewrite Int32_wrap_in_range
    by (unfold Int32.in_range, Int32.min_signed, Int32.max_signed in *; lia).
  destruct (Z.leb_spec 0 (m_GcStructuresInvalidCnt w - 1)); split; done || lia.
Qed.

Lemma markValid_beyond_balance_is_fatal_witness :
  GcRuntimeStructuresValid true (set_InvalidCnt 0 boot_world)
  = AssertFailed (set_InvalidCnt (-1) boot_world)
  ∧ GcRuntimeStructuresValid true boot_world
    = Returned tt (set_InvalidCnt 0 boot_world).
Proof.
  split.
  - apply (markValid_beyond_balance_is_fatal (set_InvalidCnt 0 boot_world));
      simpl; unfold Int32.min_signed, Int32.max_signed; lia.
  - apply (markValid_beyond_balance_is_fatal boot_world);
      simpl; unfold Int32.min_signed, Int32.max_signed; lia.
Defined.

(** C5, as stated, fails in the state the process starts in: one
    invalidation and one validation return the counter to 1, and the
    structures are reported invalid. *)
Lemma invalid_then_valid_from_boot :
  invalid_then_valid 1 boot_world = Returned tt boot_world
  ∧ GetGcRuntimeStructuresValid boot_world = Returned false boot_world.
Proof. split; reflexivity. Qed.

(** C5, amended. From a state in which the structures are valid (counter 0),
    [n] invalidations followed by [n] validations, for [n] up to
    [INT32_MAX], all return, restore the state and leave
    [GetGcRuntimeStructuresValid] returning true. *)
Theorem invalid_then_valid_balanced n w :
  m_GcStructuresInvalidCnt w = 0%Z →
  (Z.of_nat n ≤ Int32.max_signed)%Z →
  invalid_then_valid n w = Returned tt w
  ∧ GetGcRuntimeStructuresValid w = Returned true w.
Proof.
  intros Hw Hn. split.
  - apply invalid_then_valid_restores; rewrite Hw; [done | lia].
  - rewrite GetGcRuntimeStructuresValid_eq, Hw. reflexivity.
Qed.

Lemma invalid_then_valid_balanced_witness :
  invalid_then_valid 3 (set_InvalidCnt 0 boot_world)
  = Returned tt (set_InvalidCnt 0 boot_world)
  ∧ GetGcRuntimeStructuresValid (set_InvalidCnt 0 boot_world)
    = Returned true (set_InvalidCnt 0 boot_world).
Proof.
  apply (invalid_then_valid_balanced 3 (set_InvalidCnt 0 boot_world)).
  - reflexivity.
  - unfold Int32.max_signed. simpl. lia.
Defined.

(** ** The synchronization-block cache *)

Lemma set_SyncBlockCache_id w : set_SyncBlockCache (g_SyncBlockCache w) w = w.
Proof. by destruct w. Qed.

Lemma CheckPromoted_eq pObjRef e lp1 lp2 w :
  CheckPromoted pObjRef e lp1 lp2 w =
  Returned tt
    (set_SyncBlockCache
       (<[pObjRef := let r := default NULL (g_SyncBlockCache w !! pObjRef) in
                     if IsPromoted (g_theGCHeap w) r then r else NULL]>
          (g_SyncBlockCache w)) w).
Proof.
  unfold CheckPromoted, bind, load_ref, gets, store_ref, modify, ret. cbv zeta.
  destruct (IsPromoted _ _) eqn:E; simpl; [|done].
  destruct (g_SyncBlockCache w !! pObjRef) as [r|] eqn:Er; simpl.
  - by rewrite list_insert_id, set_SyncBlockCache_id.
  - rewrite list_insert_ge, set_SyncBlockCache_id; [done|].
    by apply lookup_ge_None.
Qed.

(** The visitor loop over the slots [k], ..., [k + n - 1]. *)
Lemma CheckPromoted_loop lp1 lp2 n : ∀ k w,
  ∃ l, for_each (seq k n) (fun i => CheckPromoted i 0%Z lp1 lp2) w
       = Returned tt (set_SyncBlockCache l w)
     ∧ ∀ j, l !! j =
         if bool_decide (k ≤ j < k + n)
         then (fun r => if IsPromoted (g_theGCHeap w) r then r else NULL)
                <$> g_SyncBlockCache w !! j
         else g_SyncBlockCache w !! j.
Proof.
  induction n as [|n IH]; intros k w.
  - exists (g_SyncBlockCache w). split.
    + simpl. unfold ret. by rewrite set_SyncBlockCache_id.
    + intros j. rewrite bool_decide_eq_false_2; [done | lia].
  - simpl. unfold bind at 1. rewrite CheckPromoted_eq. cbv zeta.
    set (c1 := <[k := _]> (g_SyncBlockCache w)).
    destruct (IH (S k) (set_SyncBlockCache c1 w)) as (l & Hl & Hj).
    exists l. split; [by rewrite Hl|].
    intros j. rewrite Hj. simpl.
    destruct (decide (j = k)) as [->|Hne].
    + rewrite bool_decide_eq_false_2 by lia.
      rewrite bool_decide_eq_true_2 by lia.
      subst c1. destruct (g_SyncBlockCache w !! k) as [r|] eqn:Er; simpl.
      * rewrite list_lookup_insert_eq; [done|]. by eapply lookup_lt_Some.
      * rewrite list_insert_ge by (by apply lookup_ge_None). by rewrite Er.
    + subst c1. rewrite list_lookup_insert_ne by done.
      destruct (decide (S k ≤ j < S k + n)).
      * rewrite !bool_decide_eq_true_2 by lia. done.
      * rewrite !bool_decide_eq_false_2 by lia. done.
Qed.

Lemma GcWeakPtrScanBySingleThread_eq condemned max_gen sc w :
  GcWeakPtrScanBySingleThread condemned max_gen sc w =
  Returned tt
    (set_SyncBlockCache
       ((fun r => if IsPromoted (g_theGCHeap w) r then r else NULL)
          <$> g_SyncBlockCache w)
       (log_call (Call_SyncBlockCacheWeakPtrScan sc 0) w)).
Proof.
  unfold GcWeakPtrScanBySingleThread, SyncBlockCacheWeakPtrScan, call, modify,
    gets, bind.
  destruct (CheckPromoted_loop sc 0%Z
              (length (g_SyncBlockCache (log_call (Call_SyncBlockCacheWeakPtrScan sc 0) w)))
              0 (log_call (Call_SyncBlockCacheWeakPtrScan sc 0) w)) as (l & Hl & Hj).
  rewrite Hl. do 2 f_equal. apply list_eq. intros j. rewrite Hj. simpl.
  rewrite list_lookup_fmap.
  destruct (decide (j < length (g_SyncBlockCache w))).
  - rewrite bool_decide_eq_true_2 by lia. done.
  - rewrite bool_decide_eq_false_2 by lia.
    rewrite lookup_ge_None_2 by lia. done.
Qed.

Lemma elem_of_cleared_refs before after i :
  i ∈ cleared_refs before after ↔ i < length before ∧ before !! i ≠ after !! i.
Proof.
  unfold cleared_refs. rewrite list_elem_of_filter, bool_decide_spec, elem_of_seq.
  split; [intros [? ?] | intros [? ?]]; split; done || lia.
Qed.

(** Two scans over equal caches whose referents have the same promotion
    status sever the same references. *)
Lemma sever_ext (h1 h2 : GCHeap) (l : list Object) :
  (∀ r, r ∈ l → IsPromoted h1 r = IsPromoted h2 r) →
  (fun r => if IsPromoted h1 r then r else NULL) <$> l
  = (fun r => if IsPromoted h2 r then r else NULL) <$> l.
Proof.
  intros H. apply list_fmap_ext. intros i r Hr.
  rewrite (H r); [done|]. by eapply list_elem_of_lookup_2.
Qed.

(** C7. The visitor [CheckPromoted] stores [NULL] in the slot it is given
    when [IsPromoted] reports the referent not promoted and leaves the slot
    as it is when the referent is promoted; hence
    [GcWeakPtrScanBySingleThread] returns, leaves the heap alone and turns
    every reference of the cache into [NULL] or itself by that rule. *)
Theorem CheckPromoted_severs_unpromoted condemned max_gen sc w :
  (∀ pObjRef ref e lp1 lp2,
     g_SyncBlockCache w !! pObjRef = Some ref →
     CheckPromoted pObjRef e lp1 lp2 w =
     Returned tt
       (if IsPromoted (g_theGCHeap w) ref then w
        else set_SyncBlockCache (<[pObjRef := NULL]> (g_SyncBlockCache w)) w))
  ∧ ∃ w', GcWeakPtrScanBySingleThread condemned max_gen sc w = Returned tt w'
      ∧ g_theGCHeap w' = g_theGCHeap w
      ∧ length (g_SyncBlockCache w') = length (g_SyncBlockCache w)
      ∧ ∀ i ref, g_SyncBlockCache w !! i = Some ref →
          g_SyncBlockCache w' !! i
          = Some (if IsPromoted (g_theGCHeap w) ref then ref else NULL).
Proof.
  split.
  - intros pObjRef ref e lp1 lp2 Href. rewrite CheckPromoted_eq, Href. simpl.
    destruct (IsPromoted (g_theGCHeap w) ref); [|done].
    by rewrite list_insert_id, set_SyncBlockCache_id.
  - rewrite GcWeakPtrScanBySingleThread_eq. eexists. split; [done|]. simpl.
    split; [done|]. split; [by rewrite length_fmap|].
    intros i ref Href. by rewrite list_lookup_fmap, Href.
Qed.

(** C10. Two calls of [GcWeakPtrScanBySingleThread] that differ in
    [condemned] and [max_gen], made with the same scan context on caches
    that hold the same references with the same promotion status, both
    return, leave equal caches and sever the same references: those that are
    not [NULL] and whose referent is not promoted. *)
Theorem GcWeakPtrScanBySingleThread_ignores_generations
    condemned1 max_gen1 condemned2 max_gen2 sc w1 w2 :
  g_SyncBlockCache w1 = g_SyncBlockCache w2 →
  (∀ ref, ref ∈ g_SyncBlockCache w1 →
     IsPromoted (g_theGCHeap w1) ref = IsPromoted (g_theGCHeap w2) ref) →
  ∃ w1' w2',
    GcWeakPtrScanBySingleThread condemned1 max_gen1 sc w1 = Returned tt w1'
    ∧ GcWeakPtrScanBySingleThread condemned2 max_gen2 sc w2 = Returned tt w2'
    ∧ g_SyncBlockCache w1' = g_SyncBlockCache w2'
    ∧ cleared_refs (g_SyncBlockCache w1) (g_SyncBlockCache w1')
      = cleared_refs (g_SyncBlockCache w2) (g_SyncBlockCache w2')
    ∧ (∀ i, i ∈ cleared_refs (g_SyncBlockCache w1) (g_SyncBlockCache w1') ↔
         ∃ ref, g_SyncBlockCache w1 !! i = Some ref ∧ ref ≠ NULL
                ∧ IsPromoted (g_theGCHeap w1) ref = false)
    ∧ (w1 = w2 → w1' = w2').
Proof.
  intros Hc Hp. rewrite !GcWeakPtrScanBySingleThread_eq.
  eexists _, _. split; [done|]. split; [done|]. simpl.
  assert ((fun r => if IsPromoted (g_theGCHeap w1) r then r else NULL)
            <$> g_SyncBlockCache w1
          = (fun r => if IsPromoted (g_theGCHeap w2) r then r else NULL)
            <$> g_SyncBlockCache w2) as Heq.
  { rewrite <- Hc. by apply sever_ext. }
  split; [done|]. split; [by rewrite Heq, Hc|]. split.
  - intros i. rewrite elem_of_cleared_refs, list_lookup_fmap. split.
    + intros [Hlt Hne]. apply lookup_lt_is_Some_2 in Hlt as [ref Href].
      exists ref. rewrite Href in Hne. simpl in Hne.
      destruct (IsPromoted (g_theGCHeap w1) ref); [done|].
      split; [done|]. split; [|done]. by intros ->.
    + intros (ref & Href & Hnull & Hdead). split.
      * by eapply lookup_lt_Some.
      * rewrite Href. simpl. rewrite Hdead. by intros [= ?].
  - by intros <-.
Qed.

(** ** Weak pointer scanning *)

Lemma Ref_CheckReachable_eq condemned max_gen sc w :
  Ref_CheckReachable condemned max_gen sc w =
  Returned tt
    (set_HandleTable
       (set_tbl_weak_long
          (clear_if_dead (g_theGCHeap w) condemned <$> tbl_weak_long (g_HandleTable w))
          (g_HandleTable w))
       (log_call (Call_Ref_CheckReachable condemned max_gen sc) w)).
Proof. reflexivity. Qed.

Lemma Ref_ScanDependentHandlesForClearing_eq condemned max_gen sc w :
  Ref_ScanDependentHandlesForClearing condemned max_gen sc w =
  Returned tt
    (set_HandleTable
       (set_tbl_dependent
          (clear_dependent (g_theGCHeap w) <$> tbl_dependent (g_HandleTable w))
          (g_HandleTable w))
       (log_call (Call_Ref_ScanDependentHandlesForClearing condemned max_gen sc) w)).
Proof. reflexivity. Qed.

Lemma GcWeakPtrScan_steps condemned max_gen sc w :
  GcWeakPtrScan condemned max_gen sc w =
  match Ref_CheckReachable condemned max_gen sc w with
  | Returned _ w1 => Ref_ScanDependentHandlesForClearing condemned max_gen sc w1
  | AssertFailed w1 => AssertFailed w1
  end.
Proof. reflexivity. Qed.

(** C6. [GcWeakPtrScan] returns having made exactly two calls, first
    [Ref_CheckReachable], then [Ref_ScanDependentHandlesForClearing] on the
    state the first one left.  After it every long-weak handle in the
    condemned range whose referent is dead reads [NULL] and every other
    long-weak handle is unchanged; every dependent handle whose primary is
    dead has its secondary (and primary) cleared and every other pair is
    unchanged. *)
Theorem GcWeakPtrScan_order condemned max_gen sc w :
  ∃ w1 w2,
    Ref_CheckReachable condemned max_gen sc w = Returned tt w1
    ∧ Ref_ScanDependentHandlesForClearing condemned max_gen sc w1 = Returned tt w2
    ∧ GcWeakPtrScan condemned max_gen sc w = Returned tt w2
    ∧ g_Calls w1 = g_Calls w ++ [Call_Ref_CheckReachable condemned max_gen sc]
    ∧ g_Calls w2 = g_Calls w ++
        [Call_Ref_CheckReachable condemned max_gen sc;
         Call_Ref_ScanDependentHandlesForClearing condemned max_gen sc]
    ∧ tbl_dependent (g_HandleTable w1) = tbl_dependent (g_HandleTable w)
    ∧ g_theGCHeap w2 = g_theGCHeap w
    ∧ (∀ i slot, tbl_weak_long (g_HandleTable w) !! i = Some slot →
         tbl_weak_long (g_HandleTable w1) !! i = tbl_weak_long (g_HandleTable w2) !! i
         ∧ tbl_weak_long (g_HandleTable w2) !! i =
           Some (if (hnd_age slot <=? condemned)%Z
                    && negb (IsPromoted (g_theGCHeap w) (hnd_ref slot))
                 then mkHandleSlot (hnd_age slot) NULL else slot))
    ∧ (∀ i p s, tbl_dependent (g_HandleTable w) !! i = Some (p, s) →
         tbl_dependent (g_HandleTable w2) !! i =
         Some (if IsPromoted (g_theGCHeap w) p then (p, s) else (NULL, NULL))).
Proof.
  rewrite GcWeakPtrScan_steps, Ref_CheckReachable_eq.
  eexists _, _. split; [done|].
  rewrite Ref_ScanDependentHandlesForClearing_eq.
  split; [done|]. split; [done|]. simpl.
  split; [done|]. split; [by rewrite <- app_assoc|].
  split; [done|]. split; [done|]. split.
  - intros i slot Hi. split; [done|].
    rewrite list_lookup_fmap, Hi. done.
  - intros i p s Hi. rewrite list_lookup_fmap, Hi. simpl.
    unfold clear_dependent. simpl.
    by destruct (IsPromoted (g_theGCHeap w) p).
Qed.

(** ** The mark engine *)

Lemma elem_of_mark_round objs (m : gset Z) x :
  x ∈ mark_round objs m ↔ x ∈ m ∨ ∃ a, a ∈ m ∧ x ∈ children objs a.
Proof.
  unfold mark_round. rewrite elem_of_union, elem_of_list_to_set, list_elem_of_bind.
  split; intros [H|(a & Ha1 & Ha2)]; auto; right; exists a.
  - by rewrite <- elem_of_elements.
  - by rewrite elem_of_elements.
Qed.

Lemma mark_round_extensive objs (m : gset Z) : m ⊆ mark_round objs m.
Proof. intros x Hx. apply elem_of_mark_round. by left. Qed.

Lemma mark_rounds_extensive objs n (m : gset Z) :
  m ⊆ Nat.iter n (mark_round objs) m.
Proof.
  induction n as [|n IH]; [done|]. simpl.
  etrans; [exact IH | apply mark_round_extensive].
Qed.

Lemma GCHeap_Promote_eq o sc h :
  GCHeap_Promote o sc h =
  (o, set_marks (Nat.iter (heap_mark_stack h) (mark_round (heap_objects h))
                          ({[o]} ∪ heap_marks h)) h).
Proof. reflexivity. Qed.

Lemma GCHeap_Promote_marks o sc h :
  o ∈ heap_marks (GCHeap_Promote o sc h).2
  ∧ heap_marks h ⊆ heap_marks (GCHeap_Promote o sc h).2.
Proof.
  rewrite GCHeap_Promote_eq. simpl.
  pose proof (mark_rounds_extensive (heap_objects h) (heap_mark_stack h)
                ({[o]} ∪ heap_marks h)).
  set_solver.
Qed.

(** ** Handle roots *)

(** Promotion walk of a category: the slots keep their content and every
    referent in the condemned range ends up marked. *)
Lemma scan_slots_Promote condemned sc slots : ∀ h,
  (scan_slots GCHeap_Promote condemned sc slots h).1 = slots
  ∧ heap_marks h ⊆ heap_marks (scan_slots GCHeap_Promote condemned sc slots h).2
  ∧ ∀ slot, slot ∈ slots → in_condemned_range condemned slot = true →
      hnd_ref slot ∈ heap_marks (scan_slots GCHeap_Promote condemned sc slots h).2.
Proof.
  induction slots as [|slot rest IH]; intros h.
  - simpl. split; [done|]. split; [done|]. intros slot H. by apply elem_of_nil in H.
  - cbn [scan_slots]. destruct (in_condemned_range condemned slot) eqn:Hr.
    + destruct (GCHeap_Promote_marks (hnd_ref slot) sc h) as [Ho Hm].
      destruct (GCHeap_Promote (hnd_ref slot) sc h) as [r h1] eqn:EP.
      assert (r = hnd_ref slot) as -> by (by inversion EP).
      destruct (IH h1) as (H1 & H2 & H3).
      destruct (scan_slots GCHeap_Promote condemned sc rest h1) as [rest' h2].
      cbn [fst snd] in *. subst rest'.
      split; [by destruct slot|]. split; [set_solver|].
      intros s Hs Hsr. apply elem_of_cons in Hs as [->|Hs]; [set_solver | auto].
    + destruct (IH h) as (H1 & H2 & H3).
      destruct (scan_slots GCHeap_Promote condemned sc rest h) as [rest' h2].
      cbn [fst snd] in *. subst rest'.
      split; [done|]. split; [done|].
      intros s Hs Hsr. apply elem_of_cons in Hs as [->|Hs]; [congruence | auto].
Qed.

(** Relocation walks leave the heap, and with it every mark, untouched. *)
Lemma scan_slots_Relocate condemned sc slots h :
  (scan_slots GCHeap_Relocate condemned sc slots h).2 = h.
Proof.
  induction slots as [|slot rest IH]; simpl; [done|].
  destruct (in_condemned_range condemned slot);
    destruct (scan_slots GCHeap_Relocate condemned sc rest h); simpl in *; done.
Qed.

Lemma scan_pairs_Relocate sc pairs h :
  (scan_pairs GCHeap_Relocate sc pairs h).2 = h.
Proof.
  induction pairs as [|[p s] rest IH]; simpl; [done|].
  destruct (scan_pairs GCHeap_Relocate sc rest h); simpl in *; done.
Qed.

Lemma set_GCHeap_id w : set_GCHeap (g_theGCHeap w) w = w.
Proof. by destruct w. Qed.

(** C8. [GcScanHandles] dispatches on [sc->promotion].  When it is set the
    calls made are [Ref_TracePinningRoots] then [Ref_TraceNormalRoots], and
    with the promotion callback every pinned and every normal-root handle in
    the condemned range has its referent marked afterwards.  When it is
    clear the calls made are [Ref_UpdatePointers], [Ref_UpdatePinnedPointers],
    [Ref_ScanDependentHandlesForRelocation] and
    [Ref_ScanWeakInteriorPointersForRelocation], in this order, none of them
    a marking walk, and with the relocation callback the heap and its marks
    are left as they were. *)
Theorem GcScanHandles_dispatch fn condemned max_gen sc w :
  (promotion sc = true →
     ∃ w', GcScanHandles fn condemned max_gen sc w = Returned tt w'
       ∧ g_Calls w' = g_Calls w ++
           [Call_Ref_TracePinningRoots condemned max_gen sc;
            Call_Ref_TraceNormalRoots condemned max_gen sc]
       ∧ (fn = GCHeap_Promote →
            ∀ slot, slot ∈ tbl_pinned (g_HandleTable w) ∨ slot ∈ tbl_strong (g_HandleTable w) →
              (hnd_age slot ≤ condemned)%Z →
              IsPromoted (g_theGCHeap w') (hnd_ref slot) = true))
  ∧ (promotion sc = false →
     ∃ w', GcScanHandles fn condemned max_gen sc w = Returned tt w'
       ∧ g_Calls w' = g_Calls w ++
           [Call_Ref_UpdatePointers condemned max_gen sc;
            Call_Ref_UpdatePinnedPointers condemned max_gen sc;
            Call_Ref_ScanDependentHandlesForRelocation condemned max_gen sc;
            Call_Ref_ScanWeakInteriorPointersForRelocation condemned max_gen sc]
       ∧ existsb is_marking_call (drop (length (g_Calls w)) (g_Calls w')) = false
       ∧ (fn = GCHeap_Relocate → g_theGCHeap w' = g_theGCHeap w)).
Proof.
  split; intros Hp; unfold GcScanHandles; rewrite Hp.
  - eexists. split; [reflexivity|]. simpl.
    split; [by rewrite <- app_assoc|].
    intros -> slot Hslot Hage.
    assert (in_condemned_range condemned slot = true) as Hr
      by (by apply Z.leb_le).
    apply bool_decide_eq_true.
    destruct (scan_slots_Promote condemned sc (tbl_pinned (g_HandleTable w))
                (g_theGCHeap w)) as (_ & M1 & R1).
    set (h1 := (scan_slots GCHeap_Promote condemned sc
                  (tbl_pinned (g_HandleTable w)) (g_theGCHeap w)).2) in *.
    destruct (scan_slots_Promote condemned sc (tbl_strong (g_HandleTable w)) h1)
      as (_ & M2 & R2).
    destruct Hslot as [Hslot|Hslot]; [apply M2, R1 | apply R2]; done.
  - eexists. split; [reflexivity|]. simpl.
    split; [by rewrite <- !app_assoc|]. split.
    + rewrite <- !app_assoc, drop_app_length. reflexivity.
    + intros ->. by rewrite !scan_slots_Relocate, scan_pairs_Relocate.
Qed.

(** ** Promotion and demotion notices *)

Lemma count_calls_app p l1 l2 :
  count_calls p (l1 ++ l2) = count_calls p l1 + count_calls p l2.
Proof. induction l1 as [|c l1 IH]; simpl; [done|]. rewrite IH. lia. Qed.

(** Among workers with distinct thread numbers, thread 0 occurs once if it
    occurs at all. *)
Lemma designated_once (workers : list ScanContext) :
  NoDup (thread_number <$> workers) →
  length (filter (fun sc => thread_number sc = 0%Z) workers)
  = if bool_decide (0%Z ∈ thread_number <$> workers) then 1 else 0.
Proof.
  induction workers as [|sc rest IH]; csimpl; intros Hnd.
  - done.
  - apply NoDup_cons in Hnd as [Hnotin Hnd].
    rewrite filter_cons. specialize (IH Hnd).
    destruct (decide (thread_number sc = 0%Z)) as [E|E].
    + rewrite E in Hnotin. rewrite bool_decide_eq_false_2 in IH by done.
      simpl. rewrite IH. rewrite bool_decide_eq_true_2; [done|].
      rewrite E. apply elem_of_cons. by left.
    + rewrite IH. apply f_equal with (f := fun b : bool => if b then 1 else 0).
      apply bool_decide_ext. rewrite elem_of_cons. naive_solver.
Qed.

Section Notifier.
Variable notice : ScanContext → GC unit.
Variable bookkeeping : ScanContext → Call.
Variable notification : Call.
Variable is_notification : Call → bool.

Hypothesis notice_eq : ∀ sc w,
  notice sc w =
  Returned tt
    (if negb (g_IsServerHeap w) || (thread_number sc =? 0)%Z
     then log_call notification (log_call (bookkeeping sc) w)
     else log_call (bookkeeping sc) w).
Hypothesis notification_counts : is_notification notification = true.
Hypothesis bookkeeping_skipped : ∀ sc, is_notification (bookkeeping sc) = false.

Lemma notice_returns sc w :
  ∃ w', notice sc w = Returned tt w'
    ∧ g_IsServerHeap w' = g_IsServerHeap w
    ∧ g_Calls w' = g_Calls w
        ++ notice_calls (g_IsServerHeap w) bookkeeping notification sc.
Proof.
  rewrite notice_eq. eexists. split; [done|]. unfold notice_calls.
  destruct (negb (g_IsServerHeap w) || (thread_number sc =? 0)%Z); simpl;
    split; try done.
  by rewrite <- app_assoc.
Qed.

Lemma each_worker_returns workers : ∀ w,
  ∃ w', each_worker notice workers w = Returned tt w'
    ∧ g_IsServerHeap w' = g_IsServerHeap w
    ∧ g_Calls w' = g_Calls w
        ++ concat (notice_calls (g_IsServerHeap w) bookkeeping notification
                     <$> workers).
Proof.
  induction workers as [|sc rest IH]; intros w.
  - exists w. split; [done|]. split; [done|]. simpl. by rewrite app_nil_r.
  - destruct (notice_returns sc w) as (w1 & E1 & S1 & C1).
    destruct (IH w1) as (w2 & E2 & S2 & C2).
    exists w2. split.
    + unfold each_worker in *. simpl. unfold bind. by rewrite E1.
    + split; [congruence|]. rewrite C2, C1, S1, fmap_cons. simpl.
      by rewrite <- app_assoc.
Qed.

Lemma count_notice_calls server workers :
  count_calls is_notification
    (concat (notice_calls server bookkeeping notification <$> workers))
  = if server
    then length (filter (fun sc => thread_number sc = 0%Z) workers)
    else length workers.
Proof.
  induction workers as [|sc rest IH]; [by destruct server|].
  csimpl. rewrite bookkeeping_skipped, count_calls_app, IH.
  destruct server; simpl.
  - rewrite filter_cons.
    destruct (Z.eqb_spec (thread_number sc) 0), (decide (thread_number sc = 0%Z));
      simpl; rewrite ?notification_counts; done || lia.
  - by rewrite notification_counts.
Qed.

(** One notification per run over workers with distinct thread numbers
    that include worker 0, when there are several heaps. *)
Lemma each_worker_notifies_once workers w :
  g_IsServerHeap w = true →
  NoDup (thread_number <$> workers) →
  0%Z ∈ thread_number <$> workers →
  ∃ w', each_worker notice workers w = Returned tt w'
    ∧ g_Calls w' = g_Calls w
        ++ concat (notice_calls true bookkeeping notification <$> workers)
    ∧ count_calls is_notification (drop (length (g_Calls w)) (g_Calls w')) = 1.
Proof.
  intros Hs Hnd H0.
  destruct (each_worker_returns workers w) as (w' & E & _ & C).
  rewrite Hs in C. exists w'. split; [done|]. split; [done|].
  rewrite C, drop_app_length, count_notice_calls, designated_once by done.
  by rewrite bool_decide_eq_true_2.
Qed.
End Notifier.

Lemma GcPromotionsGranted_eq condemned max_gen sc w :
  GcPromotionsGranted condemned max_gen sc w =
  Returned tt
    (if negb (g_IsServerHeap w) || (thread_number sc =? 0)%Z
     then log_call (Call_SyncBlockCachePromotionsGranted max_gen)
            (log_call (Call_Ref_AgeHandles condemned max_gen sc) w)
     else log_call (Call_Ref_AgeHandles condemned max_gen sc) w).
Proof.
  unfold GcPromotionsGranted, bind, Ref_AgeHandles, IsServerHeap, gets, call,
    modify, SyncBlockCachePromotionsGranted, ret. simpl.
  by destruct (negb (g_IsServerHeap w) || (thread_number sc =? 0)%Z).
Qed.

Lemma GcDemote_eq condemned max_gen sc w :
  GcDemote condemned max_gen sc w =
  Returned tt
    (if negb (g_IsServerHeap w) || (thread_number sc =? 0)%Z
     then log_call (Call_SyncBlockCacheDemote max_gen)
            (log_call (Call_Ref_RejuvenateHandles condemned max_gen sc) w)
     else log_call (Call_Ref_RejuvenateHandles condemned max_gen sc) w).
Proof.
  unfold GcDemote, bind, Ref_RejuvenateHandles, IsServerHeap, gets, call,
    modify, SyncBlockCacheDemote, ret. simpl.
  by destruct (negb (g_IsServerHeap w) || (thread_number sc =? 0)%Z).
Qed.

Lemma calls_made_GcPromotionsGranted condemned max_gen sc w :
  calls_made (GcPromotionsGranted condemned max_gen sc) w =
  Some (Call_Ref_AgeHandles condemned max_gen sc ::
        if negb (g_IsServerHeap w) || (thread_number sc =? 0)%Z
        then [Call_SyncBlockCachePromotionsGranted max_gen] else []).
Proof.
  unfold calls_made. rewrite GcPromotionsGranted_eq.
  destruct (negb (g_IsServerHeap w) || (thread_number sc =? 0)%Z); simpl;
    by rewrite <- ?app_assoc, drop_app_length.
Qed.

Lemma calls_made_GcDemote condemned max_gen sc w :
  calls_made (GcDemote condemned max_gen sc) w =
  Some (Call_Ref_RejuvenateHandles condemned max_gen sc ::
        if negb (g_IsServerHeap w) || (thread_number sc =? 0)%Z
        then [Call_SyncBlockCacheDemote max_gen] else []).
Proof.
  unfold calls_made. rewrite GcDemote_eq.
  destruct (negb (g_IsServerHeap w) || (thread_number sc =? 0)%Z); simpl;
    by rewrite <- ?app_assoc, drop_app_length.
Qed.

(** C9. With several heaps, a run in which each worker calls
    [GcPromotionsGranted] once, the workers having distinct thread numbers
    one of which is 0, returns and notifies the synchronization-block cache
    exactly once, the log of the run being each worker's [Ref_AgeHandles]
    followed, for worker 0 only, by the notification; a single call notifies
    exactly when its context has [thread_number == 0].  With one
    heap every call notifies.  [GcDemote] behaves the same way with
    [Ref_RejuvenateHandles] and [SyncBlockCacheDemote]. *)
Theorem single_designated_worker condemned max_gen w :
  (∀ workers,
     g_IsServerHeap w = true →
     NoDup (thread_number <$> workers) →
     0%Z ∈ thread_number <$> workers →
     (∃ w', each_worker (GcPromotionsGranted condemned max_gen) workers w
            = Returned tt w'
        ∧ g_Calls w' = g_Calls w
            ++ concat (notice_calls true (Call_Ref_AgeHandles condemned max_gen)
                         (Call_SyncBlockCachePromotionsGranted max_gen)
                       <$> workers)
        ∧ count_calls is_PromotionsGranted
            (drop (length (g_Calls w)) (g_Calls w')) = 1)
     ∧ (∃ w', each_worker (GcDemote condemned max_gen) workers w
              = Returned tt w'
        ∧ g_Calls w' = g_Calls w
            ++ concat (notice_calls true
                         (Call_Ref_RejuvenateHandles condemned max_gen)
                         (Call_SyncBlockCacheDemote max_gen)
                       <$> workers)
        ∧ count_calls is_Demote
            (drop (length (g_Calls w)) (g_Calls w')) = 1))
  ∧ (∀ sc,
       g_IsServerHeap w = true →
       calls_made (GcPromotionsGranted condemned max_gen sc) w =
         Some (Call_Ref_AgeHandles condemned max_gen sc ::
               if (thread_number sc =? 0)%Z
               then [Call_SyncBlockCachePromotionsGranted max_gen] else [])
       ∧ calls_made (GcDemote condemned max_gen sc) w =
         Some (Call_Ref_RejuvenateHandles condemned max_gen sc ::
               if (thread_number sc =? 0)%Z
               then [Call_SyncBlockCacheDemote max_gen] else []))
  ∧ (∀ sc,
       g_IsServerHeap w = false →
       calls_made (GcPromotionsGranted condemned max_gen sc) w =
         Some [Call_Ref_AgeHandles condemned max_gen sc;
               Call_SyncBlockCachePromotionsGranted max_gen]
       ∧ calls_made (GcDemote condemned max_gen sc) w =
         Some [Call_Ref_RejuvenateHandles condemned max_gen sc;
               Call_SyncBlockCacheDemote max_gen]).
Proof.
  split; [|split].
  - intros workers Hs Hnd H0. split.
    + destruct (each_worker_notifies_once
                  (GcPromotionsGranted condemned max_gen)
                  (Call_Ref_AgeHandles condemned max_gen)
                  (Call_SyncBlockCachePromotionsGranted max_gen)
                  is_PromotionsGranted
                  (GcPromotionsGranted_eq condemned max_gen) eq_refl
                  (fun _ => eq_refl) workers w Hs Hnd H0) as (w' & E & L & C).
      by exists w'.
    + destruct (each_worker_notifies_once
                  (GcDemote condemned max_gen)
                  (Call_Ref_RejuvenateHandles condemned max_gen)
                  (Call_SyncBlockCacheDemote max_gen)
                  is_Demote
                  (GcDemote_eq condemned max_gen) eq_refl
                  (fun _ => eq_refl) workers w Hs Hnd H0) as (w' & E & L & C).
      by exists w'.
  - intros sc Hs.
    rewrite calls_made_GcPromotionsGranted, calls_made_GcDemote, Hs. done.
  - intros sc Hs.
    rewrite calls_made_GcPromotionsGranted, calls_made_GcDemote, Hs. done.
Qed.

(** ** Draining the mark stack *)

Lemma children_field_targets objs a x :
  x ∈ children objs a → x ∈ field_targets objs.
Proof.
  unfold children, field_targets. intros Hx.
  destruct (objs !! a) as [l|] eqn:E; simpl in Hx; [|by apply elem_of_nil in Hx].
  apply elem_of_list_to_set, list_elem_of_bind. exists (a, l).
  split; [done|]. by apply elem_of_map_to_list.
Qed.

Lemma mark_round_candidates objs (m : gset Z) :
  mark_round objs m ⊆ m ∪ field_targets objs.
Proof.
  intros x [Hx|(a & _ & Ha)]%elem_of_mark_round; [set_solver|].
  apply elem_of_union_r. by eapply children_field_targets.
Qed.

Lemma mark_rounds_candidates objs n (m : gset Z) :
  Nat.iter n (mark_round objs) m ⊆ m ∪ field_targets objs.
Proof.
  induction n as [|n IH]; simpl; [set_solver|].
  etrans; [apply mark_round_candidates|]. set_solver.
Qed.

(** Anything preserved by a round of tracing is preserved by several rounds
    and by a drain. *)
Lemma mark_rounds_ind (P : gset Z → Prop) objs n m :
  (∀ m', P m' → P (mark_round objs m')) → P m →
  P (Nat.iter n (mark_round objs) m).
Proof. intros Hstep Hm. induction n as [|n IH]; simpl; auto. Qed.

Lemma drain_ind (P : gset Z → Prop) objs n : ∀ m,
  (∀ m', P m' → P (mark_round objs m')) → P m → P (drain objs n m).
Proof.
  induction n as [|n IH]; intros m Hstep Hm; simpl; [done|].
  destruct (decide (mark_round objs m = m)); [done|]. apply IH; auto.
Qed.

Lemma drain_extensive objs n (m : gset Z) : m ⊆ drain objs n m.
Proof.
  apply (drain_ind (fun m' => m ⊆ m')); [|done].
  intros m' H. etrans; [exact H | apply mark_round_extensive].
Qed.

Lemma drain_candidates objs n (m : gset Z) :
  drain objs n m ⊆ m ∪ field_targets objs.
Proof.
  apply (drain_ind (fun m' => m' ⊆ m ∪ field_targets objs)); [|set_solver].
  intros m' H. etrans; [apply mark_round_candidates|]. set_solver.
Qed.

(** Marks that grow inside a set of candidates leave fewer candidates. *)
Lemma candidates_shrink (cand m m' : gset Z) :
  m ⊆ m' → m' ⊆ m ∪ cand → m' ≠ m →
  size (cand ∖ m') < size (cand ∖ m).
Proof.
  intros H1 H2 Hne. apply subset_size.
  assert (∃ x, x ∈ m' ∖ m) as [x Hx].
  { apply set_choose_L. intros He. apply Hne.
    apply set_eq. intros y. split; [|by apply H1].
    intros Hy. destruct (decide (y ∈ m)) as [|Hn]; [done|].
    assert (y ∈ m' ∖ m) as Hd by (by apply elem_of_difference).
    rewrite He in Hd. by apply elem_of_empty in Hd. }
  apply elem_of_difference in Hx as [Hx1 Hx2].
  split.
  - intros y [Hy1 Hy2]%elem_of_difference. apply elem_of_difference.
    split; [done|]. intros Hy. by apply Hy2, H1.
  - intros Hsub. assert (x ∈ cand ∖ m') as Hx'%elem_of_difference.
    { apply Hsub, elem_of_difference. split; [|done].
      apply H2 in Hx1. apply elem_of_union in Hx1 as [|]; done. }
    by destruct Hx'.
Qed.

(** With fuel for every object a field refers to, a drain ends in a set
    that tracing no longer enlarges. *)
Lemma drain_closed objs n : ∀ m : gset Z,
  size (field_targets objs ∖ m) ≤ n →
  mark_round objs (drain objs n m) = drain objs n m.
Proof.
  induction n as [|n IH]; intros m Hn; simpl.
  - assert (field_targets objs ⊆ m) as Hsub.
    { assert (size (field_targets objs ∖ m) = 0) as H0%size_empty_inv by lia.
      set_solver. }
    apply set_eq. intros x. split; [|apply mark_round_extensive].
    intros Hx%mark_round_candidates. set_solver.
  - destruct (decide (mark_round objs m = m)) as [E|E]; [done|].
    apply IH.
    pose proof (candidates_shrink (field_targets objs) m (mark_round objs m)
                  (mark_round_extensive objs m) (mark_round_candidates objs m) E).
    lia.
Qed.

Lemma process_mark_overflow_eq w :
  process_mark_overflow w =
  let h := g_theGCHeap w in
  let m' := drain (heap_objects h) (size (field_targets (heap_objects h)))
                  (heap_marks h) in
  Returned (bool_decide (m' ≠ heap_marks h)) (set_GCHeap (set_marks m' h) w).
Proof. reflexivity. Qed.

Lemma process_mark_overflow_closed w :
  let h := g_theGCHeap w in
  let m' := drain (heap_objects h) (size (field_targets (heap_objects h)))
                  (heap_marks h) in
  mark_round (heap_objects h) m' = m'.
Proof.
  cbv zeta. apply drain_closed. apply subseteq_size. set_solver.
Qed.

(** ** Dependent handle promotion with the promotion callback *)

Lemma GCHeap_Promote_fields o sc h :
  (GCHeap_Promote o sc h).1 = o
  ∧ heap_objects (GCHeap_Promote o sc h).2 = heap_objects h
  ∧ heap_mark_stack (GCHeap_Promote o sc h).2 = heap_mark_stack h
  ∧ heap_plan (GCHeap_Promote o sc h).2 = heap_plan h.
Proof. done. Qed.

Lemma GCHeap_Promote_candidates o sc h :
  heap_marks (GCHeap_Promote o sc h).2
  ⊆ heap_marks h ∪ ({[o]} ∪ field_targets (heap_objects h)).
Proof.
  rewrite GCHeap_Promote_eq. simpl.
  etrans; [apply mark_rounds_candidates|]. set_solver.
Qed.

Lemma IsPromoted_true h o : IsPromoted h o = true ↔ o ∈ heap_marks h.
Proof. apply bool_decide_eq_true. Qed.

Lemma IsPromoted_false h o : IsPromoted h o = false ↔ o ∉ heap_marks h.
Proof. apply bool_decide_eq_false. Qed.

Lemma dh_promotion_walk_cons fn sc p s rest h :
  dh_promotion_walk fn sc ((p, s) :: rest) h =
  if IsPromoted h p && negb (IsPromoted h s) then
    let r := dh_promotion_walk fn sc rest (fn s sc h).2 in
    ((p, (fn s sc h).1) :: r.1.1, r.1.2, true)
  else
    let r := dh_promotion_walk fn sc rest h in
    ((p, s) :: r.1.1, r.1.2, r.2).
Proof.
  cbn [dh_promotion_walk].
  destruct (IsPromoted h p && negb (IsPromoted h s)).
  - destruct (fn s sc h) as [s' h']. cbn [fst snd].
    by destruct (dh_promotion_walk fn sc rest h') as [[? ?] ?].
  - by destruct (dh_promotion_walk fn sc rest h) as [[? ?] ?].
Qed.

(** What every promotion of a walk preserves holds after the walk. *)
Lemma dh_promotion_walk_ind (P : GCHeap → Prop) sc l : ∀ h,
  P h →
  (∀ p s h', (p, s) ∈ l → P h' →
     IsPromoted h' p = true → IsPromoted h' s = false →
     P (GCHeap_Promote s sc h').2) →
  P (dh_promotion_walk GCHeap_Promote sc l h).1.2.
Proof.
  induction l as [|[p s] rest IH]; intros h Hh Hstep; [done|].
  rewrite dh_promotion_walk_cons.
  destruct (IsPromoted h p && negb (IsPromoted h s)) eqn:G; cbv zeta; cbn [fst snd].
  - apply andb_true_iff in G as [Gp Gs%negb_true_iff].
    apply IH.
    + apply (Hstep p s h); [apply elem_of_cons; by left | done..].
    + intros p' s' h' Hin. apply Hstep. apply elem_of_cons. by right.
  - apply IH; [done|].
    intros p' s' h' Hin. apply Hstep. apply elem_of_cons. by right.
Qed.

Lemma dh_promotion_walk_table sc l : ∀ h,
  (dh_promotion_walk GCHeap_Promote sc l h).1.1 = l.
Proof.
  induction l as [|[p s] rest IH]; intros h; [done|].
  rewrite dh_promotion_walk_cons.
  destruct (IsPromoted h p && negb (IsPromoted h s)); cbv zeta; cbn [fst snd];
    by rewrite IH.
Qed.

Lemma dh_promotion_walk_extensive sc l h :
  heap_marks h ⊆ heap_marks (dh_promotion_walk GCHeap_Promote sc l h).1.2.
Proof.
  apply (dh_promotion_walk_ind (fun h' => heap_marks h ⊆ heap_marks h'));
    [done|].
  intros p s h' _ Hh' _ _. etrans; [exact Hh'|].
  apply GCHeap_Promote_marks.
Qed.

Lemma dh_promotion_walk_fields sc l h :
  heap_objects (dh_promotion_walk GCHeap_Promote sc l h).1.2 = heap_objects h
  ∧ heap_mark_stack (dh_promotion_walk GCHeap_Promote sc l h).1.2 = heap_mark_stack h
  ∧ heap_plan (dh_promotion_walk GCHeap_Promote sc l h).1.2 = heap_plan h.
Proof.
  apply (dh_promotion_walk_ind
           (fun h' => heap_objects h' = heap_objects h
                      ∧ heap_mark_stack h' = heap_mark_stack h
                      ∧ heap_plan h' = heap_plan h)); [done|].
  intros p s h' _ Hh' _ _. exact Hh'.
Qed.

Lemma dh_promotion_walk_candidates sc l h :
  heap_marks (dh_promotion_walk GCHeap_Promote sc l h).1.2
  ⊆ heap_marks h ∪ (field_targets (heap_objects h) ∪ list_to_set l.*2).
Proof.
  apply (dh_promotion_walk_ind
           (fun h' => heap_objects h' = heap_objects h
                      ∧ heap_marks h'
                        ⊆ heap_marks h
                          ∪ (field_targets (heap_objects h) ∪ list_to_set l.*2)));
    [split; [done | set_solver]|].
  intros p s h' Hin [Ho Hm] _ _. split; [done|].
  etrans; [apply GCHeap_Promote_candidates|]. rewrite Ho.
  assert (s ∈ (list_to_set l.*2 : gset Z)).
  { apply elem_of_list_to_set, list_elem_of_fmap. by exists (p, s). }
  set_solver.
Qed.

(** A walk that promotes nothing changes nothing, and then every pair with a
    marked primary has a marked secondary. *)
Lemma dh_promotion_walk_quiet sc l : ∀ h,
  (dh_promotion_walk GCHeap_Promote sc l h).2 = false →
  (dh_promotion_walk GCHeap_Promote sc l h).1.2 = h
  ∧ ∀ p s, (p, s) ∈ l → p ∈ heap_marks h → s ∈ heap_marks h.
Proof.
  induction l as [|[p s] rest IH]; intros h.
  - intros _. split; [done|]. intros p s H. by apply elem_of_nil in H.
  - rewrite dh_promotion_walk_cons.
    destruct (IsPromoted h p && negb (IsPromoted h s)) eqn:G; cbv zeta;
      cbn [fst snd]; [done|].
    intros Hq. destruct (IH h Hq) as [E Hrest]. split; [done|].
    intros p' s' [[= -> ->]|Hin]%elem_of_cons Hp; [|by eapply Hrest].
    apply IsPromoted_true in Hp. rewrite Hp in G. simpl in G.
    by apply negb_false_iff, IsPromoted_true in G.
Qed.

(** A walk that promotes marks something new. *)
Lemma dh_promotion_walk_progress sc l : ∀ h,
  (dh_promotion_walk GCHeap_Promote sc l h).2 = true →
  heap_marks (dh_promotion_walk GCHeap_Promote sc l h).1.2 ≠ heap_marks h.
Proof.
  induction l as [|[p s] rest IH]; intros h; [done|].
  rewrite dh_promotion_walk_cons.
  destruct (IsPromoted h p && negb (IsPromoted h s)) eqn:G; cbv zeta;
    cbn [fst snd]; [|apply IH].
  intros _ Heq.
  apply andb_true_iff in G as [_ Gs%negb_true_iff%IsPromoted_false].
  apply Gs. rewrite <- Heq.
  destruct (GCHeap_Promote_marks s sc h) as [Hs _].
  by apply dh_promotion_walk_extensive.
Qed.

(** ** The dependent handle cycle *)

Lemma Ref_ScanDependentHandlesForPromotion_fields p w :
  let ctx := g_DhContexts w p in
  let r := dh_promotion_walk (m_pfnPromoteFunction ctx) (m_pScanContext ctx)
             (tbl_dependent (g_HandleTable w)) (g_theGCHeap w) in
  ∃ w', Ref_ScanDependentHandlesForPromotion p w = Returned r.2 w'
    ∧ g_theGCHeap w' = r.1.2
    ∧ tbl_dependent (g_HandleTable w') = r.1.1
    ∧ m_pfnPromoteFunction (g_DhContexts w' p) = m_pfnPromoteFunction ctx
    ∧ m_fUnpromotedPrimaries (g_DhContexts w' p)
      = existsb (dh_unresolved r.1.2) r.1.1
    ∧ m_fPromoted (g_DhContexts w' p) = r.2.
Proof.
  cbv zeta. eexists. split; [reflexivity|]. simpl.
  rewrite decide_True by done. done.
Qed.

Lemma existsb_dh_unresolved h (l : list (Object * Object)) :
  existsb (dh_unresolved h) l = false ↔
  ∀ p s, (p, s) ∈ l → ¬ (IsPromoted h p = false ∧ IsPromoted h s = false).
Proof.
  induction l as [|[p s] rest IH]; simpl.
  - split; [|done]. intros _ p s H. by apply elem_of_nil in H.
  - rewrite orb_false_iff, IH. unfold dh_unresolved. simpl. split.
    + intros [Hps Hrest] p' s' [[= -> ->]|Hin]%elem_of_cons; [|by apply Hrest].
      intros [Hp Hs]. by rewrite Hp, Hs in Hps.
    + intros H. split.
      * destruct (IsPromoted h p) eqn:Hp, (IsPromoted h s) eqn:Hs; try done.
        exfalso. apply (H p s); [apply elem_of_cons; by left | done].
      * intros p' s' Hin. apply H. apply elem_of_cons. by right.
Qed.

Lemma scan_sets_unpromoted_flag p w :
  ∃ b w', Ref_ScanDependentHandlesForPromotion p w = Returned b w'
    ∧ m_fUnpromotedPrimaries (g_DhContexts w' p)
      = existsb (dh_unresolved (g_theGCHeap w')) (tbl_dependent (g_HandleTable w')).
Proof.
  destruct (Ref_ScanDependentHandlesForPromotion_fields p w)
    as (w' & E & Hh & Ht & _ & Hf & _). cbv zeta in *.
  eexists _, w'. split; [exact E|]. by rewrite Hf, Hh, Ht.
Qed.

Lemma GcDhUnpromotedHandlesExist_eq sc w :
  GcDhUnpromotedHandlesExist sc w =
  Returned (m_fUnpromotedPrimaries (g_DhContexts w (Ref_GetDependentHandleContext sc))) w.
Proof. reflexivity. Qed.

(** A re-scan keeps the cycle on track, never unmarks, and either marks
    something new or finds every pair settled. *)
Lemma rescan_step w0 p w :
  cycle_inv w0 p w →
  ∃ b w', Ref_ScanDependentHandlesForPromotion p w = Returned b w'
    ∧ cycle_inv w0 p w'
    ∧ heap_marks (g_theGCHeap w) ⊆ heap_marks (g_theGCHeap w')
    ∧ (b = true → heap_marks (g_theGCHeap w') ≠ heap_marks (g_theGCHeap w))
    ∧ (b = false →
         g_theGCHeap w' = g_theGCHeap w
         ∧ ∀ p' s, (p', s) ∈ tbl_dependent (g_HandleTable w0) →
             p' ∈ heap_marks (g_theGCHeap w) → s ∈ heap_marks (g_theGCHeap w)).
Proof.
  intros (Hobjs & Htbl & Hfn & Hroots & Hcand & Hsound).
  destruct (Ref_ScanDependentHandlesForPromotion_fields p w)
    as (w' & E & Hh & Ht & Hf & _). cbv zeta in *.
  rewrite Hfn in *. rewrite Htbl in *.
  set (sc := m_pScanContext (g_DhContexts w p)) in *.
  set (l := tbl_dependent (g_HandleTable w0)) in *.
  set (r := dh_promotion_walk GCHeap_Promote sc l (g_theGCHeap w)) in *.
  exists r.2, w'. split; [done|].
  pose proof (dh_promotion_walk_extensive sc l (g_theGCHeap w)) as Hext.
  pose proof (dh_promotion_walk_fields sc l (g_theGCHeap w)) as (Ho & _ & _).
  pose proof (dh_promotion_walk_candidates sc l (g_theGCHeap w)) as Hc.
  fold r in Hext, Ho, Hc.
  split; [|split; [by rewrite Hh|split]].
  - split; [by rewrite Hh, Ho|]. split; [rewrite Ht; unfold r; by rewrite dh_promotion_walk_table|].
    split; [done|]. split; [rewrite Hh; set_solver|]. split.
    + rewrite Hh. rewrite Hobjs in Hc. unfold cycle_candidates. fold l.
      set_solver.
    + rewrite Hh. subst r.
      apply (dh_promotion_walk_ind
               (fun h' => heap_objects h' = heap_objects (g_theGCHeap w0)
                          ∧ ∀ o, o ∈ heap_marks h' → reachable w0 o));
        [done|].
      intros p' s h' Hin [Ho' Hs'] Hp%IsPromoted_true _. split; [done|].
      rewrite GCHeap_Promote_eq. simpl.
      apply (mark_rounds_ind (fun m => ∀ o, o ∈ m → reachable w0 o)).
      * intros m' Hm' o [Hom|(a & Ha & Hoa)]%elem_of_mark_round; [auto|].
        apply reach_field with a; [auto|]. by rewrite <- Ho'.
      * intros o [->%elem_of_singleton|Hom]%elem_of_union; [|auto].
        apply reach_dependent with p'; auto.
  - intros Hb. rewrite Hh. by apply dh_promotion_walk_progress.
  - intros Hb. destruct (dh_promotion_walk_quiet sc l _ Hb) as [Hq1 Hq2].
    split; [by rewrite Hh|done].
Qed.

(** Draining keeps the cycle on track, never unmarks, reports exactly
    whether it marked something and leaves nothing for tracing to add. *)
Lemma drain_step w0 p w :
  cycle_inv w0 p w →
  ∃ d w', process_mark_overflow w = Returned d w'
    ∧ cycle_inv w0 p w'
    ∧ heap_marks (g_theGCHeap w) ⊆ heap_marks (g_theGCHeap w')
    ∧ (d = true → heap_marks (g_theGCHeap w') ≠ heap_marks (g_theGCHeap w))
    ∧ (d = false → heap_marks (g_theGCHeap w') = heap_marks (g_theGCHeap w))
    ∧ mark_round (heap_objects (g_theGCHeap w')) (heap_marks (g_theGCHeap w'))
      = heap_marks (g_theGCHeap w').
Proof.
  intros (Hobjs & Htbl & Hfn & Hroots & Hcand & Hsound).
  rewrite process_mark_overflow_eq. cbv zeta.
  pose proof (process_mark_overflow_closed w) as Hclosed. cbv zeta in Hclosed.
  set (objs := heap_objects (g_theGCHeap w)) in *.
  set (m' := drain objs (size (field_targets objs)) (heap_marks (g_theGCHeap w))) in *.
  pose proof (drain_extensive objs (size (field_targets objs))
                (heap_marks (g_theGCHeap w))) as Hext.
  pose proof (drain_candidates objs (size (field_targets objs))
                (heap_marks (g_theGCHeap w))) as Hc.
  fold m' in Hext, Hc.
  eexists _, _. split; [reflexivity|]. simpl.
  split; [|split; [done|split; [|split; [|done]]]].
  - split; [done|]. split; [done|]. split; [done|].
    split; [set_solver|]. split.
    + unfold cycle_candidates. subst objs. rewrite Hobjs in Hc. set_solver.
    + subst m'. apply (drain_ind (fun m => ∀ o, o ∈ m → reachable w0 o)); [|done].
      intros m1 Hm1 o [Hom|(a & Ha & Hoa)]%elem_of_mark_round; [auto|].
      apply reach_field with a; [auto|]. subst objs. by rewrite <- Hobjs.
  - by intros H%bool_decide_eq_true.
  - intros H%bool_decide_eq_false. by apply dec_stable in H.
Qed.

(** A re-scan leaves the flag telling what the table then holds. *)
Lemma rescan_step_flag w0 p w :
  cycle_inv w0 p w →
  ∃ b w', Ref_ScanDependentHandlesForPromotion p w = Returned b w'
    ∧ cycle_inv w0 p w' ∧ flag_current p w'
    ∧ heap_marks (g_theGCHeap w) ⊆ heap_marks (g_theGCHeap w')
    ∧ (b = true → heap_marks (g_theGCHeap w') ≠ heap_marks (g_theGCHeap w))
    ∧ (b = false →
         g_theGCHeap w' = g_theGCHeap w
         ∧ ∀ p' s, (p', s) ∈ tbl_dependent (g_HandleTable w0) →
             p' ∈ heap_marks (g_theGCHeap w) → s ∈ heap_marks (g_theGCHeap w)).
Proof.
  intros Hinv.
  destruct (rescan_step w0 p w Hinv) as (b & w' & E & I & M & B1 & B0).
  destruct (scan_sets_unpromoted_flag p w) as (b' & w'' & E' & Hf).
  rewrite E in E'. injection E' as <- <-.
  by exists b, w'.
Qed.

(** The loop ends within fuel for every candidate, on the flag or for want
    of progress; ended for want of progress it has reached a fixed point,
    ended on the flag the flag is clear. *)
Lemma dh_fixed_point_ends w0 sc : ∀ fuel w,
  cycle_inv w0 (thread_number sc) w →
  flag_current (thread_number sc) w →
  size (cycle_candidates w0 ∖ heap_marks (g_theGCHeap w)) < fuel →
  ∃ e w', dh_fixed_point fuel sc w = Returned e w'
    ∧ e ≠ OutOfFuel
    ∧ cycle_inv w0 (thread_number sc) w'
    ∧ flag_current (thread_number sc) w'
    ∧ (e = NoProgress → cycle_closed w')
    ∧ (e = NoHandlesLeft →
       m_fUnpromotedPrimaries (g_DhContexts w' (thread_number sc)) = false).
Proof.
  induction fuel as [|n IH]; intros w Hinv Hflag Hfuel; [lia|].
  cbn [dh_fixed_point]. unfold bind at 1.
  rewrite GcDhUnpromotedHandlesExist_eq. unfold Ref_GetDependentHandleContext.
  destruct (m_fUnpromotedPrimaries (g_DhContexts w (thread_number sc))) eqn:Hgate;
    cbn [negb].
  2:{ exists NoHandlesLeft, w. split; [done|]. split; [done|].
      split; [done|]. split; [done|]. split; [done|]. done. }
  unfold bind.
  destruct (drain_step w0 _ w Hinv) as (d & w1 & E1 & I1 & M1 & D1 & D0 & C1).
  rewrite E1. unfold GcDhReScan, Ref_GetDependentHandleContext.
  destruct (rescan_step_flag w0 _ w1 I1) as (b & w2 & E2 & I2 & F2 & M2 & B1 & B0).
  rewrite E2. destruct (d || b) eqn:Hdb.
  - apply IH; [done | done |].
    assert (heap_marks (g_theGCHeap w2) ≠ heap_marks (g_theGCHeap w)) as Hne.
    { intros Heq. rewrite Heq in M2.
      assert (heap_marks (g_theGCHeap w1) = heap_marks (g_theGCHeap w)) as E
        by (by apply (anti_symm (⊆))).
      apply orb_true_iff in Hdb as [->| ->]; [by apply D1|].
      apply B1; [done|]. by rewrite Heq, E. }
    destruct Hinv as (_ & _ & _ & R0 & _). destruct I2 as (_ & _ & _ & _ & K2 & _).
    pose proof (candidates_shrink (cycle_candidates w0)
                  (heap_marks (g_theGCHeap w)) (heap_marks (g_theGCHeap w2))) as Hs.
    assert (size (cycle_candidates w0 ∖ heap_marks (g_theGCHeap w2))
            < size (cycle_candidates w0 ∖ heap_marks (g_theGCHeap w))) as Hlt.
    { apply Hs; [set_solver | set_solver | done]. }
    lia.
  - apply orb_false_iff in Hdb as [-> ->].
    destruct (B0 eq_refl) as [Hh Hpairs].
    exists NoProgress, w2. split; [done|]. split; [done|]. split; [done|].
    split; [done|]. split; [|done]. intros _. unfold cycle_closed.
    destruct I2 as (_ & T2 & _). rewrite Hh, T2. done.
Qed.

Lemma GcDhInitialScan_eq fn condemned max_gen sc w :
  GcDhInitialScan fn condemned max_gen sc w =
  match Ref_ScanDependentHandlesForPromotion (thread_number sc)
          (upd_DhContext (thread_number sc) (set_m_pScanContext sc)
             (upd_DhContext (thread_number sc) (set_m_iMaxGen max_gen)
                (upd_DhContext (thread_number sc) (set_m_iCondemned condemned)
                   (upd_DhContext (thread_number sc)
                      (set_m_pfnPromoteFunction fn) w))))
  with
  | Returned _ w' => Returned tt w'
  | AssertFailed w' => AssertFailed w'
  end.
Proof. reflexivity. Qed.

Lemma GcDhInitialScan_starts condemned max_gen sc w0 :
  ∃ w1, GcDhInitialScan GCHeap_Promote condemned max_gen sc w0 = Returned tt w1
    ∧ cycle_inv w0 (thread_number sc) w1
    ∧ flag_current (thread_number sc) w1.
Proof.
  rewrite GcDhInitialScan_eq.
  set (w := upd_DhContext _ _ _).
  assert (cycle_inv w0 (thread_number sc) w) as Hinv.
  { subst w. unfold cycle_inv. simpl. rewrite !decide_True by done. simpl.
    split; [done|]. split; [done|]. split; [done|]. split; [done|].
    split; [set_solver|]. intros o Ho. by apply reach_marked. }
  destruct (rescan_step_flag w0 _ w Hinv) as (b & w1 & E & I1 & F1 & _).
  rewrite E. by exists w1.
Qed.

(** At a fixed point the marked objects are the reachable ones. *)
Lemma cycle_closed_reachable w0 p w :
  cycle_inv w0 p w → cycle_closed w →
  ∀ o, o ∈ heap_marks (g_theGCHeap w) ↔ reachable w0 o.
Proof.
  intros (Hobjs & Htbl & _ & Hroots & _ & Hsound) [Hround Hpairs] o.
  split; [apply Hsound|].
  induction 1 as [o Ho|a b _ IHa Hb|p' s _ IHp Hin].
  - by apply Hroots.
  - rewrite <- Hround. apply elem_of_mark_round. right. exists a.
    split; [done|]. by rewrite Hobjs.
  - apply (Hpairs p' s); [by rewrite Htbl | done].
Qed.

(** A cycle with fuel for every candidate ends.  Whatever it marked is
    reachable and what was marked stays marked; ended for want of progress
    it has marked everything reachable; ended on the flag it has left no
    pair with both sides unmarked. *)
Lemma dh_cycle_ends fuel condemned max_gen sc w0 :
  size (cycle_candidates w0) < fuel →
  ∃ e w', dh_cycle fuel GCHeap_Promote condemned max_gen sc w0 = Returned e w'
    ∧ e ≠ OutOfFuel
    ∧ tbl_dependent (g_HandleTable w') = tbl_dependent (g_HandleTable w0)
    ∧ (∀ o, IsPromoted (g_theGCHeap w') o = true → reachable w0 o)
    ∧ (e = NoProgress →
       ∀ o, reachable w0 o → IsPromoted (g_theGCHeap w') o = true)
    ∧ (e = NoHandlesLeft →
       ∀ p s, (p, s) ∈ tbl_dependent (g_HandleTable w0) →
         IsPromoted (g_theGCHeap w') p = true
         ∨ IsPromoted (g_theGCHeap w') s = true).
Proof.
  intros Hfuel. unfold dh_cycle, bind.
  destruct (GcDhInitialScan_starts condemned max_gen sc w0) as (w1 & E1 & I1 & F1).
  rewrite E1.
  destruct (dh_fixed_point_ends w0 sc fuel w1 I1 F1)
    as (e & w2 & E2 & He & I2 & F2 & Hclosed & Hgate).
  { eapply Nat.le_lt_trans; [|exact Hfuel]. apply subseteq_size. set_solver. }
  exists e, w2. split; [done|]. split; [done|]. split; [apply I2|].
  split; [|split].
  - intros o Ho%IsPromoted_true. by apply I2.
  - intros -> o Ho. apply IsPromoted_true.
    by apply (cycle_closed_reachable w0 _ w2 I2 (Hclosed eq_refl)).
  - intros -> p s Hin. specialize (Hgate eq_refl).
    rewrite F2 in Hgate.
    destruct I2 as (_ & T2 & _). rewrite T2 in Hgate.
    pose proof (proj1 (existsb_dh_unresolved _ _) Hgate p s Hin) as Hns.
    destruct (IsPromoted (g_theGCHeap w2) p); [by left|].
    destruct (IsPromoted (g_theGCHeap w2) s); [by right|].
    by destruct Hns.
Qed.

(** The chain needs the loop: the first walk promotes 3 but has already
    passed the pair (3, 4); the loop then promotes 4, and draining reaches
    5 through its field.  The secondary 8 of the dead primary 7 stays
    unpromoted. *)
Example chain_after_initial_scan :
  match GcDhInitialScan GCHeap_Promote 0 2 (mkScanContext 0 true) chain_world with
  | Returned _ w =>
      IsPromoted (g_theGCHeap w) <$> [1; 3; 4; 5; 7; 8]%Z
  | AssertFailed _ => []
  end = [true; true; false; false; false; false].
Proof. vm_compute. reflexivity. Qed.

Example chain_after_cycle :
  match dh_cycle 5 GCHeap_Promote 0 2 (mkScanContext 0 true) chain_world with
  | Returned e w =>
      (e, IsPromoted (g_theGCHeap w) <$> [1; 3; 4; 5; 7; 8]%Z)
  | AssertFailed _ => (OutOfFuel, [])
  end = (NoProgress, [true; true; true; true; false; false]).
Proof. vm_compute. reflexivity. Qed.

(** On the short chain the first walk leaves the flag clear (no pair has
    both sides unmarked) while the pair (3, 4), already passed, has its
    primary marked and its secondary not; the loop then stops on the flag
    at once.  An end on the flag is therefore no fixed point of the walk. *)
Example short_chain_after_initial_scan :
  match GcDhInitialScan GCHeap_Promote 0 2 (mkScanContext 0 true)
          short_chain_world with
  | Returned _ w =>
      (m_fUnpromotedPrimaries (g_DhContexts w 0),
       m_fPromoted (g_DhContexts w 0),
       IsPromoted (g_theGCHeap w) <$> [1; 3; 4]%Z)
  | AssertFailed _ => (true, false, [])
  end = (false, true, [true; true; false]).
Proof. vm_compute. reflexivity. Qed.

Example short_chain_after_cycle :
  match dh_cycle 3 GCHeap_Promote 0 2 (mkScanContext 0 true)
          short_chain_world with
  | Returned e w =>
      (e, IsPromoted (g_theGCHeap w) <$> [1; 3; 4]%Z)
  | AssertFailed _ => (OutOfFuel, [])
  end = (NoHandlesLeft, [true; true; false]).
Proof. vm_compute. reflexivity. Qed.




(** ** The need-more-work query *)

(** C2. [GcDhUnpromotedHandlesExist] returns the flag
    [m_fUnpromotedPrimaries] of the context of the calling heap and changes
    nothing; after [GcDhInitialScan] and after [GcDhReScan] it returns false
    if and only if the table then holds no dependent handle whose primary
    and secondary are both unmarked. *)
Theorem GcDhUnpromotedHandlesExist_flag fn condemned max_gen sc w :
  GcDhUnpromotedHandlesExist sc w =
    Returned (m_fUnpromotedPrimaries
                (g_DhContexts w (Ref_GetDependentHandleContext sc))) w
  ∧ (∃ w' flag,
       GcDhInitialScan fn condemned max_gen sc w = Returned tt w'
       ∧ GcDhUnpromotedHandlesExist sc w' = Returned flag w'
       ∧ (flag = false ↔
          ∀ p s, (p, s) ∈ tbl_dependent (g_HandleTable w') →
            ¬ (IsPromoted (g_theGCHeap w') p = false
               ∧ IsPromoted (g_theGCHeap w') s = false)))
  ∧ (∃ promoted w' flag,
       GcDhReScan sc w = Returned promoted w'
       ∧ GcDhUnpromotedHandlesExist sc w' = Returned flag w'
       ∧ (flag = false ↔
          ∀ p s, (p, s) ∈ tbl_dependent (g_HandleTable w') →
            ¬ (IsPromoted (g_theGCHeap w') p = false
               ∧ IsPromoted (g_theGCHeap w') s = false))).
Proof.
  split; [apply GcDhUnpromotedHandlesExist_eq|]. split.
  - rewrite GcDhInitialScan_eq.
    destruct (scan_sets_unpromoted_flag (thread_number sc)
                (upd_DhContext (thread_number sc) (set_m_pScanContext sc)
                   (upd_DhContext (thread_number sc) (set_m_iMaxGen max_gen)
                      (upd_DhContext (thread_number sc) (set_m_iCondemned condemned)
                         (upd_DhContext (thread_number sc)
                            (set_m_pfnPromoteFunction fn) w)))))
      as (b & w' & E & Hf).
    rewrite E. eexists w', _. split; [done|].
    split; [apply GcDhUnpromotedHandlesExist_eq|].
    unfold Ref_GetDependentHandleContext. rewrite Hf.
    apply existsb_dh_unresolved.
  - unfold GcDhReScan, Ref_GetDependentHandleContext.
    destruct (scan_sets_unpromoted_flag (thread_number sc) w)
      as (b & w' & E & Hf).
    eexists b, w', _. split; [done|].
    split; [apply GcDhUnpromotedHandlesExist_eq|].
    unfold Ref_GetDependentHandleContext. rewrite Hf.
    apply existsb_dh_unresolved.
Qed.

(** ** The scenarios, run *)

Lemma GcWeakPtrScan_order_witness :
  ∃ w2, GcWeakPtrScan 1 2 (mkScanContext 0 true) handles_world = Returned tt w2
    ∧ tbl_weak_long (g_HandleTable w2) !! 0 = Some (mkHandleSlot 0 10%Z)
    ∧ tbl_weak_long (g_HandleTable w2) !! 1 = Some (mkHandleSlot 0 NULL)
    ∧ tbl_weak_long (g_HandleTable w2) !! 2 = Some (mkHandleSlot 2 20%Z)
    ∧ tbl_dependent (g_HandleTable w2) !! 0 = Some (10, 11)%Z
    ∧ tbl_dependent (g_HandleTable w2) !! 1 = Some (NULL, NULL).
Proof.
  destruct (GcWeakPtrScan_order 1 2 (mkScanContext 0 true) handles_world)
    as (w1 & w2 & _ & _ & E & _ & _ & _ & _ & Hweak & Hdep).
  exists w2. split; [exact E|].
  split; [exact (proj2 (Hweak 0 (mkHandleSlot 0 10%Z) eq_refl))|].
  split; [exact (proj2 (Hweak 1 (mkHandleSlot 0 20%Z) eq_refl))|].
  split; [exact (proj2 (Hweak 2 (mkHandleSlot 2 20%Z) eq_refl))|].
  split; [exact (Hdep 0 10%Z 11%Z eq_refl) | exact (Hdep 1 20%Z 21%Z eq_refl)].
Defined.

Lemma CheckPromoted_severs_unpromoted_witness :
  CheckPromoted 0 0 (mkScanContext 0 true) 0 handles_world
  = Returned tt handles_world
  ∧ CheckPromoted 1 0 (mkScanContext 0 true) 0 handles_world
    = Returned tt (set_SyncBlockCache [10; NULL; 0]%Z handles_world).
Proof.
  destruct (CheckPromoted_severs_unpromoted 0 2 (mkScanContext 0 true)
              handles_world) as [Hvisit _].
  split.
  - exact (Hvisit 0 10%Z 0%Z (mkScanContext 0 true) 0%Z eq_refl).
  - exact (Hvisit 1 20%Z 0%Z (mkScanContext 0 true) 0%Z eq_refl).
Defined.

Lemma GcScanHandles_dispatch_witness :
  (∃ w', GcScanHandles GCHeap_Promote 1 2 (mkScanContext 0 true) handles_world
         = Returned tt w'
     ∧ IsPromoted (g_theGCHeap w') 40%Z = true
     ∧ IsPromoted (g_theGCHeap w') 30%Z = true)
  ∧ (∃ w', GcScanHandles GCHeap_Relocate 1 2 (mkScanContext 0 false) handles_world
           = Returned tt w'
       ∧ g_theGCHeap w' = g_theGCHeap handles_world).
Proof.
  split.
  - destruct (GcScanHandles_dispatch GCHeap_Promote 1 2 (mkScanContext 0 true)
                handles_world) as [Hmark _].
    destruct (Hmark eq_refl) as (w' & E & _ & Hroots).
    exists w'. split; [exact E|]. split.
    + apply (Hroots eq_refl (mkHandleSlot 1 40%Z)); [|simpl; lia].
      left. apply list_elem_of_singleton. reflexivity.
    + apply (Hroots eq_refl (mkHandleSlot 0 30%Z)); [|simpl; lia].
      right. apply list_elem_of_singleton. reflexivity.
  - destruct (GcScanHandles_dispatch GCHeap_Relocate 1 2 (mkScanContext 0 false)
                handles_world) as [_ Hrelocate].
    destruct (Hrelocate eq_refl) as (w' & E & _ & _ & Hheap).
    exists w'. split; [exact E | exact (Hheap eq_refl)].
Defined.

Lemma single_designated_worker_witness :
  (∃ w', each_worker (GcPromotionsGranted 1 2) three_workers server_world
         = Returned tt w'
     ∧ g_Calls w' =
       [Call_Ref_AgeHandles 1 2 (mkScanContext 2 true);
        Call_Ref_AgeHandles 1 2 (mkScanContext 0 true);
        Call_SyncBlockCachePromotionsGranted 2;
        Call_Ref_AgeHandles 1 2 (mkScanContext 1 true)])
  ∧ calls_made (GcDemote 1 2 (mkScanContext 5 true)) boot_world
    = Some [Call_Ref_RejuvenateHandles 1 2 (mkScanContext 5 true);
            Call_SyncBlockCacheDemote 2].
Proof.
  destruct (single_designated_worker 1 2 server_world) as [Hrun _].
  destruct (single_designated_worker 1 2 boot_world) as (_ & _ & Hsingle).
  split.
  - destruct (Hrun three_workers eq_refl) as [(w' & E & L & _) _].
    + apply (bool_decide_unpack _). vm_compute. exact I.
    + apply (bool_decide_unpack _). vm_compute. exact I.
    + exists w'. split; [exact E | exact L].
  - exact (proj2 (Hsingle (mkScanContext 5 true) eq_refl)).
Defined.

Lemma GcWeakPtrScanBySingleThread_ignores_generations_witness :
  ∃ w1' w2',
    GcWeakPtrScanBySingleThread 0 2 (mkScanContext 0 true) handles_world
    = Returned tt w1'
    ∧ GcWeakPtrScanBySingleThread 2 2 (mkScanContext 0 true) other_handles_world
      = Returned tt w2'
    ∧ g_SyncBlockCache w1' = g_SyncBlockCache w2'
    ∧ cleared_refs (g_SyncBlockCache handles_world) (g_SyncBlockCache w1')
      = cleared_refs (g_SyncBlockCache other_handles_world) (g_SyncBlockCache w2').
Proof.
  destruct (GcWeakPtrScanBySingleThread_ignores_generations 0 2 2 2
              (mkScanContext 0 true) handles_world other_handles_world)
    as (w1' & w2' & E1 & E2 & Hc & Hs & _).
  - reflexivity.
  - intros ref Href. apply list_elem_of_In in Href. simpl in Href.
    destruct Href as [<-|[<-|[<-|[]]]]; reflexivity.
  - exists w1', w2'. split; [exact E1|]. split; [exact E2|].
    split; [exact Hc | exact Hs].
Defined.

(** * Further properties *)

(** ** The validity gate *)

Lemma set_InvalidCnt_id w : set_InvalidCnt (m_GcStructuresInvalidCnt w) w = w.
Proof. by destruct w. Qed.

Lemma set_InvalidCnt_twice a b w :
  set_InvalidCnt a (set_InvalidCnt b w) = set_InvalidCnt a w.
Proof. reflexivity. Qed.

(** X1. A sequence of [GcRuntimeStructuresValid] calls that returns, started
    with an [int32_t] counter above [INT32_MIN], leaves the counter at its
    old value plus the invalidations minus the validations, and leaves
    everything else in the process as it was. *)
Theorem gate_calls_accounting flags : ∀ w w',
  (Int32.min_signed < m_GcStructuresInvalidCnt w ≤ Int32.max_signed)%Z →
  gate_calls flags w = Returned tt w' →
  w' = set_InvalidCnt (m_GcStructuresInvalidCnt w + net_windows flags) w.
Proof.
  induction flags as [|b flags IH]; intros w w' Hw.
  - intros [= <-]. simpl. by rewrite Z.add_0_r, set_InvalidCnt_id.
  - rewrite gate_calls_cons. destruct b; cbn [net_windows].
    + rewrite GcRuntimeStructuresValid_valid. cbv zeta.
      rewrite Int32_wrap_in_range
        by (unfold Int32.in_range, Int32.min_signed, Int32.max_signed in *; lia).
      destruct (Z.leb_spec 0 (m_GcStructuresInvalidCnt w - 1)); [|done].
      intros Hrun. apply IH in Hrun.
      * rewrite Hrun, set_InvalidCnt_twice. simpl. f_equal. lia.
      * simpl. unfold Int32.min_signed in *. lia.
    + rewrite GcRuntimeStructuresValid_invalid. cbv zeta.
      destruct (decide (m_GcStructuresInvalidCnt w = Int32.max_signed)) as [E|E].
      * rewrite E. done.
      * rewrite Int32_wrap_in_range
          by (unfold Int32.in_range, Int32.min_signed, Int32.max_signed in *; lia).
        destruct (Z.ltb_spec 0 (m_GcStructuresInvalidCnt w + 1)); [|done].
        intros Hrun. apply IH in Hrun.
        -- rewrite Hrun, set_InvalidCnt_twice. simpl. f_equal. lia.
        -- simpl. unfold Int32.min_signed in *. lia.
Qed.

Lemma gate_calls_accounting_witness :
  gate_calls [false; false; true] boot_world
  = Returned tt (set_InvalidCnt 2 boot_world)
  ∧ set_InvalidCnt 2 boot_world
    = set_InvalidCnt (1 + net_windows [false; false; true]) boot_world.
Proof.
  split; [reflexivity|].
  apply (gate_calls_accounting [false; false; true] boot_world
           (set_InvalidCnt 2 boot_world)); [|reflexivity].
  simpl. unfold Int32.min_signed, Int32.max_signed. lia.
Defined.

(** X2. An invalidation at counter [INT32_MAX] wraps the counter to
    [INT32_MIN] and trips the assertion; so from a valid state [INT32_MAX]
    nested invalidations return and the next one is fatal. *)
Theorem invalidation_overflow w :
  (m_GcStructuresInvalidCnt w = Int32.max_signed →
     GcRuntimeStructuresValid false w
     = AssertFailed (set_InvalidCnt Int32.min_signed w))
  ∧ (m_GcStructuresInvalidCnt w = 0%Z →
       gate_calls (replicate (Z.to_nat Int32.max_signed) false) w
       = Returned tt (set_InvalidCnt Int32.max_signed w)
       ∧ gate_calls (replicate (Z.to_nat Int32.max_signed + 1) false) w
         = AssertFailed (set_InvalidCnt Int32.min_signed w)).
Proof.
  split.
  - intros Hw. rewrite GcRuntimeStructuresValid_invalid, Hw. reflexivity.
  - intros Hw.
    assert (gate_calls (replicate (Z.to_nat Int32.max_signed) false) w
            = Returned tt (set_InvalidCnt Int32.max_signed w)) as Hmax.
    { rewrite gate_calls_invalid by (rewrite ?Hw, ?Z2Nat.id; done).
      by rewrite Hw, Z2Nat.id. }
    split; [exact Hmax|].
    rewrite replicate_add, gate_calls_app, Hmax. reflexivity.
Qed.

Lemma invalidation_overflow_witness :
  GcRuntimeStructuresValid false (set_InvalidCnt Int32.max_signed boot_world)
  = AssertFailed (set_InvalidCnt Int32.min_signed boot_world)
  ∧ gate_calls (replicate (Z.to_nat Int32.max_signed + 1) false)
      (set_InvalidCnt 0 boot_world)
    = AssertFailed (set_InvalidCnt Int32.min_signed boot_world).
Proof.
  split.
  - exact (proj1 (invalidation_overflow
                    (set_InvalidCnt Int32.max_signed boot_world)) eq_refl).
  - exact (proj2 (proj2 (invalidation_overflow (set_InvalidCnt 0 boot_world))
                    eq_refl)).
Defined.

(** X3. From a state in which the structures are valid, after any sequence
    of [GcRuntimeStructuresValid] calls that returns,
    [GetGcRuntimeStructuresValid] returns true exactly when as many windows
    were closed as were opened. *)
Theorem valid_iff_windows_closed flags w w' :
  m_GcStructuresInvalidCnt w = 0%Z →
  gate_calls flags w = Returned tt w' →
  GetGcRuntimeStructuresValid w' = Returned (net_windows flags =? 0)%Z w'.
Proof.
  intros Hw Hrun.
  assert (0 ≤ m_GcStructuresInvalidCnt w' ≤ Int32.max_signed)%Z as Hinv.
  { eapply gate_calls_invariant; [|exact Hrun]. rewrite Hw. by compute. }
  apply gate_calls_accounting in Hrun;
    [|rewrite Hw; unfold Int32.min_signed, Int32.max_signed; lia].
  rewrite GetGcRuntimeStructuresValid_eq.
  destruct (Z.leb_spec 0 (m_GcStructuresInvalidCnt w')); [|lia].
  rewrite Hrun at 1. simpl. by rewrite Hw.
Qed.

Lemma valid_iff_windows_closed_witness :
  GetGcRuntimeStructuresValid (set_InvalidCnt 1 boot_world)
  = Returned false (set_InvalidCnt 1 boot_world).
Proof.
  exact (valid_iff_windows_closed [false; false; true]
           (set_InvalidCnt 0 boot_world) (set_InvalidCnt 1 boot_world)
           eq_refl eq_refl).
Defined.

(** X4. An invalidation followed by a validation restores the state when
    the counter is in [0, INT32_MAX); a validation followed by an
    invalidation restores it when the counter is in [1, INT32_MAX]. *)
Theorem invalidate_validate_inverse w :
  ((0 ≤ m_GcStructuresInvalidCnt w < Int32.max_signed)%Z →
     (GcRuntimeStructuresValid false >> GcRuntimeStructuresValid true) w
     = Returned tt w)
  ∧ ((1 ≤ m_GcStructuresInvalidCnt w ≤ Int32.max_signed)%Z →
       (GcRuntimeStructuresValid true >> GcRuntimeStructuresValid false) w
       = Returned tt w).
Proof.
  split; intros Hw; unfold bind.
  - rewrite GcRuntimeStructuresValid_invalid. cbv zeta.
    rewrite Int32_wrap_in_range
      by (unfold Int32.in_range, Int32.min_signed, Int32.max_signed in *; lia).
    destruct (Z.ltb_spec 0 (m_GcStructuresInvalidCnt w + 1)); [|lia].
    rewrite GcRuntimeStructuresValid_valid. cbv zeta. simpl.
    rewrite Int32_wrap_in_range
      by (unfold Int32.in_range, Int32.min_signed, Int32.max_signed in *; lia).
    destruct (Z.leb_spec 0 (m_GcStructuresInvalidCnt w + 1 - 1)); [|lia].
    rewrite set_InvalidCnt_twice, Z.add_simpl_r. by rewrite set_InvalidCnt_id.
  - rewrite GcRuntimeStructuresValid_valid. cbv zeta.
    rewrite Int32_wrap_in_range
      by (unfold Int32.in_range, Int32.min_signed, Int32.max_signed in *; lia).
    destruct (Z.leb_spec 0 (m_GcStructuresInvalidCnt w - 1)); [|lia].
    rewrite GcRuntimeStructuresValid_invalid. cbv zeta. simpl.
    rewrite Int32_wrap_in_range
      by (unfold Int32.in_range, Int32.min_signed, Int32.max_signed in *; lia).
    destruct (Z.ltb_spec 0 (m_GcStructuresInvalidCnt w - 1 + 1)); [|lia].
    rewrite set_InvalidCnt_twice, Z.sub_simpl_r. by rewrite set_InvalidCnt_id.
Qed.

Lemma invalidate_validate_inverse_witness :
  (GcRuntimeStructuresValid false >> GcRuntimeStructuresValid true) boot_world
  = Returned tt boot_world
  ∧ (GcRuntimeStructuresValid true >> GcRuntimeStructuresValid false) boot_world
    = Returned tt boot_world.
Proof.
  split.
  - apply (proj1 (invalidate_validate_inverse boot_world)).
    simpl. unfold Int32.max_signed. lia.
  - apply (proj2 (invalidate_validate_inverse boot_world)).
    simpl. unfold Int32.max_signed. lia.
Defined.

(** ** The synchronization-block cache *)

(** X5. [CheckPromoted] returns having changed at most the slot it was
    given, and that slot only to [NULL]: every other slot of the cache, the
    length of the cache and everything else in the process stay as they
    were. *)
Theorem CheckPromoted_frame pObjRef e lp1 lp2 w :
  ∃ w', CheckPromoted pObjRef e lp1 lp2 w = Returned tt w'
    ∧ w' = set_SyncBlockCache (g_SyncBlockCache w') w
    ∧ length (g_SyncBlockCache w') = length (g_SyncBlockCache w)
    ∧ (∀ j, j ≠ pObjRef → g_SyncBlockCache w' !! j = g_SyncBlockCache w !! j)
    ∧ (g_SyncBlockCache w' !! pObjRef = g_SyncBlockCache w !! pObjRef
       ∨ g_SyncBlockCache w' !! pObjRef = Some NULL).
Proof.
  rewrite CheckPromoted_eq. eexists. split; [reflexivity|]. simpl.
  split; [done|]. split; [by rewrite length_insert|]. split.
  - intros j Hj. by rewrite list_lookup_insert_ne.
  - destruct (g_SyncBlockCache w !! pObjRef) as [r|] eqn:Er; simpl.
    + rewrite list_lookup_insert_eq by (by eapply lookup_lt_Some).
      destruct (IsPromoted (g_theGCHeap w) r); [left | right]; done.
    + left. rewrite list_insert_ge by (by apply lookup_ge_None). done.
Qed.

(** X6. After [GcWeakPtrScanBySingleThread] every reference left in the
    cache is [NULL] or has a promoted referent, and a second scan, with
    whatever arguments, changes no reference. *)
Theorem weak_scan_leaves_only_promoted condemned max_gen sc w :
  ∃ w1, GcWeakPtrScanBySingleThread condemned max_gen sc w = Returned tt w1
    ∧ (∀ i ref, g_SyncBlockCache w1 !! i = Some ref →
         ref = NULL ∨ IsPromoted (g_theGCHeap w) ref = true)
    ∧ ∀ condemned' max_gen' sc',
        ∃ w2, GcWeakPtrScanBySingleThread condemned' max_gen' sc' w1
              = Returned tt w2
          ∧ g_SyncBlockCache w2 = g_SyncBlockCache w1.
Proof.
  rewrite GcWeakPtrScanBySingleThread_eq. eexists. split; [reflexivity|].
  simpl. split.
  - intros i ref. rewrite list_lookup_fmap.
    destruct (g_SyncBlockCache w !! i) as [r|]; simpl; [|done].
    destruct (IsPromoted (g_theGCHeap w) r) eqn:Hr; intros [= <-]; auto.
  - intros condemned' max_gen' sc'.
    rewrite GcWeakPtrScanBySingleThread_eq. eexists. split; [reflexivity|].
    simpl. rewrite <- list_fmap_compose. apply list_fmap_ext.
    intros i r _. simpl.
    destruct (IsPromoted (g_theGCHeap w) r) eqn:Hr; [by rewrite Hr|].
    by destruct (IsPromoted (g_theGCHeap w) NULL).
Qed.

(** ** Promotion and demotion notices *)

Lemma count_bookkeeping_calls (bookkeeping : ScanContext → Call)
    (notification : Call) (p : Call → bool) server workers :
  p notification = false → (∀ sc, p (bookkeeping sc) = true) →
  count_calls p (concat (notice_calls server bookkeeping notification <$> workers))
  = length workers.
Proof.
  intros Hn Hb. induction workers as [|sc rest IH]; [done|].
  csimpl. rewrite Hb, count_calls_app, IH.
  destruct (negb server || (thread_number sc =? 0)%Z); simpl;
    rewrite ?Hn; lia.
Qed.

(** X7. In a run in which each of the given workers calls
    [GcPromotionsGranted] (or each calls [GcDemote]), every worker makes its
    [Ref_AgeHandles] (or [Ref_RejuvenateHandles]) call, and the number of
    notifications of the synchronization-block cache is the number of
    workers when there is one heap and the number of workers whose
    [thread_number] is 0 when there are several - none if no worker has
    number 0, several if several do. *)
Theorem notification_count condemned max_gen workers w :
  ∃ w1 w2,
    each_worker (GcPromotionsGranted condemned max_gen) workers w = Returned tt w1
    ∧ each_worker (GcDemote condemned max_gen) workers w = Returned tt w2
    ∧ count_calls is_AgeHandles (drop (length (g_Calls w)) (g_Calls w1))
      = length workers
    ∧ count_calls is_RejuvenateHandles (drop (length (g_Calls w)) (g_Calls w2))
      = length workers
    ∧ count_calls is_PromotionsGranted (drop (length (g_Calls w)) (g_Calls w1))
      = (if g_IsServerHeap w
         then length (filter (fun sc => thread_number sc = 0%Z) workers)
         else length workers)
    ∧ count_calls is_Demote (drop (length (g_Calls w)) (g_Calls w2))
      = (if g_IsServerHeap w
         then length (filter (fun sc => thread_number sc = 0%Z) workers)
         else length workers).
Proof.
  destruct (each_worker_returns (GcPromotionsGranted condemned max_gen)
              (Call_Ref_AgeHandles condemned max_gen)
              (Call_SyncBlockCachePromotionsGranted max_gen)
              (GcPromotionsGranted_eq condemned max_gen) workers w)
    as (w1 & E1 & _ & C1).
  destruct (each_worker_returns (GcDemote condemned max_gen)
              (Call_Ref_RejuvenateHandles condemned max_gen)
              (Call_SyncBlockCacheDemote max_gen)
              (GcDemote_eq condemned max_gen) workers w)
    as (w2 & E2 & _ & C2).
  exists w1, w2. split; [done|]. split; [done|].
  rewrite C1, C2, !drop_app_length.
  split; [by apply count_bookkeeping_calls|].
  split; [by apply count_bookkeeping_calls|].
  split; by apply count_notice_calls.
Qed.

(** ** The mark-phase entry points *)

(** X11. [GcProcessBridgeObjects] asserts that it runs in the mark phase:
    with [sc->promotion] clear it trips the assertion before it reaches
    [Ref_ScanBridgeObjects] and leaves the state as it found it; with
    [sc->promotion] set it is [Ref_ScanBridgeObjects], result and state. *)
Theorem GcProcessBridgeObjects_mark_phase_only
    (R : Type) (Ref_ScanBridgeObjects : Z → Z → ScanContext → GC R)
    condemned max_gen sc w :
  (promotion sc = false →
     GcProcessBridgeObjects R Ref_ScanBridgeObjects condemned max_gen sc w
     = AssertFailed w)
  ∧ (promotion sc = true →
       GcProcessBridgeObjects R Ref_ScanBridgeObjects condemned max_gen sc w
       = Ref_ScanBridgeObjects condemned max_gen sc w).
Proof.
  unfold GcProcessBridgeObjects, bind, _ASSERTE, ret.
  split; intros ->; [done|].
  by destruct (Ref_ScanBridgeObjects condemned max_gen sc w).
Qed.

Lemma GcProcessBridgeObjects_mark_phase_only_witness :
  GcProcessBridgeObjects (list Object)
    (fun _ _ _ => gets g_SyncBlockCache) 0 2 (mkScanContext 0 false) handles_world
  = AssertFailed handles_world
  ∧ GcProcessBridgeObjects (list Object)
      (fun _ _ _ => gets g_SyncBlockCache) 0 2 (mkScanContext 0 true) handles_world
    = Returned [10; 20; 0]%Z handles_world.
Proof.
  split.
  - exact (proj1 (GcProcessBridgeObjects_mark_phase_only (list Object)
                    (fun _ _ _ => gets g_SyncBlockCache) 0 2
                    (mkScanContext 0 false) handles_world) eq_refl).
  - exact (proj2 (GcProcessBridgeObjects_mark_phase_only (list Object)
                    (fun _ _ _ => gets g_SyncBlockCache) 0 2
                    (mkScanContext 0 true) handles_world) eq_refl).
Defined.

(** ** Dependent handle scanning *)

Lemma Ref_ScanDependentHandlesForPromotion_frame p w :
  ∃ b u w', Ref_ScanDependentHandlesForPromotion p w = Returned b w'
    ∧ (∀ i, g_DhContexts w' i =
            if decide (i = p) then set_scan_flags u b (g_DhContexts w p)
            else g_DhContexts w i)
    ∧ tbl_weak_long (g_HandleTable w') = tbl_weak_long (g_HandleTable w)
    ∧ m_GcStructuresInvalidCnt w' = m_GcStructuresInvalidCnt w
    ∧ g_SyncBlockCache w' = g_SyncBlockCache w.
Proof.
  eexists _, _, _. split; [reflexivity|]. simpl. split; [|done].
  intros i. by destruct (decide (i = p)) as [->|].
Qed.

(** X8. [GcDhInitialScan] records its four parameters in the dependent
    handle context of the calling heap, where they are found after the scan
    it runs, and leaves the context of every other heap, the validity
    counter and the synchronization-block cache as they were. *)
Theorem GcDhInitialScan_records fn condemned max_gen sc w :
  ∃ w', GcDhInitialScan fn condemned max_gen sc w = Returned tt w'
    ∧ m_pfnPromoteFunction (g_DhContexts w' (Ref_GetDependentHandleContext sc)) = fn
    ∧ m_iCondemned (g_DhContexts w' (Ref_GetDependentHandleContext sc)) = condemned
    ∧ m_iMaxGen (g_DhContexts w' (Ref_GetDependentHandleContext sc)) = max_gen
    ∧ m_pScanContext (g_DhContexts w' (Ref_GetDependentHandleContext sc)) = sc
    ∧ (∀ t, t ≠ Ref_GetDependentHandleContext sc →
         g_DhContexts w' t = g_DhContexts w t)
    ∧ m_GcStructuresInvalidCnt w' = m_GcStructuresInvalidCnt w
    ∧ g_SyncBlockCache w' = g_SyncBlockCache w.
Proof.
  rewrite GcDhInitialScan_eq. unfold Ref_GetDependentHandleContext.
  set (w0 := upd_DhContext _ _ _).
  destruct (Ref_ScanDependentHandlesForPromotion_frame (thread_number sc) w0)
    as (b & u & w' & E & Hctx & _ & Hcnt & Hcache).
  rewrite E. exists w'. split; [done|].
  rewrite Hctx, decide_True by done. subst w0. simpl.
  rewrite !decide_True by done. simpl.
  split; [done|]. split; [done|]. split; [done|]. split; [done|].
  split; [|done].
  intros t Ht. rewrite Hctx, decide_False by done. simpl.
  by rewrite !decide_False by done.
Qed.

(** A walk over pairs that are all settled promotes nothing. *)
Lemma dh_promotion_walk_settled fn sc l : ∀ h,
  (∀ p s, (p, s) ∈ l → p ∈ heap_marks h → s ∈ heap_marks h) →
  dh_promotion_walk fn sc l h = (l, h, false).
Proof.
  induction l as [|[p s] rest IH]; intros h Hset; [done|].
  rewrite dh_promotion_walk_cons.
  destruct (IsPromoted h p && negb (IsPromoted h s)) eqn:G.
  - apply andb_true_iff in G as [Gp%IsPromoted_true Gs%negb_true_iff%IsPromoted_false].
    exfalso. apply Gs, (Hset p s); [apply elem_of_cons; by left | done].
  - cbv zeta. rewrite IH; [done|].
    intros p' s' Hin. apply Hset. apply elem_of_cons. by right.
Qed.

(** X9. With the promotion callback recorded in the context, [GcDhReScan]
    never unmarks an object and rewrites no dependent handle; it returns
    true exactly when it marked something new; and when it returns false it
    has left the heap as it was and a further [GcDhReScan] returns false
    again without changing the heap. *)
Theorem GcDhReScan_progress sc w :
  m_pfnPromoteFunction (g_DhContexts w (Ref_GetDependentHandleContext sc))
  = GCHeap_Promote →
  ∃ promoted w',
    GcDhReScan sc w = Returned promoted w'
    ∧ heap_marks (g_theGCHeap w) ⊆ heap_marks (g_theGCHeap w')
    ∧ tbl_dependent (g_HandleTable w') = tbl_dependent (g_HandleTable w)
    ∧ (promoted = true ↔
       heap_marks (g_theGCHeap w') ≠ heap_marks (g_theGCHeap w))
    ∧ (promoted = false →
       g_theGCHeap w' = g_theGCHeap w
       ∧ ∃ w'', GcDhReScan sc w' = Returned false w''
           ∧ g_theGCHeap w'' = g_theGCHeap w').
Proof.
  unfold GcDhReScan, Ref_GetDependentHandleContext. intros Hfn.
  destruct (Ref_ScanDependentHandlesForPromotion_fields (thread_number sc) w)
    as (w' & E & Hh & Ht & Hf & _). cbv zeta in *.
  rewrite Hfn in *.
  set (sc0 := m_pScanContext (g_DhContexts w (thread_number sc))) in *.
  set (l := tbl_dependent (g_HandleTable w)) in *.
  set (r := dh_promotion_walk GCHeap_Promote sc0 l (g_theGCHeap w)) in *.
  assert (r.1.1 = l) as Htbl by apply dh_promotion_walk_table.
  exists r.2, w'. split; [done|].
  split; [rewrite Hh; unfold r; apply dh_promotion_walk_extensive|].
  split; [by rewrite Ht|]. split.
  - split.
    + intros Hb. rewrite Hh. unfold r. by apply dh_promotion_walk_progress.
    + intros Hne. destruct r.2 eqn:Hb; [done|]. exfalso. apply Hne.
      rewrite Hh. destruct (dh_promotion_walk_quiet sc0 l _ Hb) as [Hq _].
      fold r in Hq. by rewrite Hq.
  - intros Hb. destruct (dh_promotion_walk_quiet sc0 l _ Hb) as [Hq Hset].
    fold r in Hq. split; [by rewrite Hh|].
    destruct (Ref_ScanDependentHandlesForPromotion_fields (thread_number sc) w')
      as (w'' & E' & Hh' & _). cbv zeta in *.
    rewrite Ht, Htbl, Hh, Hq in E', Hh'.
    rewrite dh_promotion_walk_settled in E', Hh' by done.
    exists w''. split; [done|]. by rewrite Hh', Hh, Hq.
Qed.

Lemma GcDhReScan_progress_witness :
  ∃ promoted w',
    GcDhReScan (mkScanContext 0 true) marking_chain_world = Returned promoted w'
    ∧ heap_marks (g_theGCHeap marking_chain_world) ⊆ heap_marks (g_theGCHeap w')
    ∧ (promoted = true ↔
       heap_marks (g_theGCHeap w') ≠ heap_marks (g_theGCHeap marking_chain_world)).
Proof.
  destruct (GcDhReScan_progress (mkScanContext 0 true) marking_chain_world eq_refl)
    as (promoted & w' & E & Hsub & _ & Hiff & _).
  exists promoted, w'. split; [exact E|]. split; [exact Hsub | exact Hiff].
Defined.

(** ** A cycle followed by the weak pointer scan *)

Lemma dh_fixed_point_weak_long sc : ∀ fuel w e w',
  dh_fixed_point fuel sc w = Returned e w' →
  tbl_weak_long (g_HandleTable w') = tbl_weak_long (g_HandleTable w).
Proof.
  induction fuel as [|n IH]; intros w e w'; cbn [dh_fixed_point].
  - by intros [= <- <-].
  - unfold bind at 1. rewrite GcDhUnpromotedHandlesExist_eq.
    destruct (negb _); [by intros [= <- <-]|].
    unfold bind. rewrite process_mark_overflow_eq. cbv zeta.
    set (w1 := set_GCHeap _ w). unfold GcDhReScan.
    destruct (Ref_ScanDependentHandlesForPromotion_frame
                (Ref_GetDependentHandleContext sc) w1)
      as (p & u & w2 & E & _ & Hwl & _).
    rewrite E. destruct (_ || p).
    + intros Hrun%IH. by rewrite Hrun, Hwl.
    + intros [= <- <-]. by rewrite Hwl.
Qed.

Lemma dh_cycle_weak_long fuel fn condemned max_gen sc w e w' :
  dh_cycle fuel fn condemned max_gen sc w = Returned e w' →
  tbl_weak_long (g_HandleTable w') = tbl_weak_long (g_HandleTable w).
Proof.
  unfold dh_cycle, bind. rewrite GcDhInitialScan_eq.
  set (w0 := upd_DhContext _ _ _).
  destruct (Ref_ScanDependentHandlesForPromotion_frame (thread_number sc) w0)
    as (p & u & w1 & E & _ & Hwl & _).
  rewrite E. intros Hrun%dh_fixed_point_weak_long. by rewrite Hrun, Hwl.
Qed.

(** X10. A cycle with the promotion callback followed by [GcWeakPtrScan]
    always clears both sides of a dependent handle whose primary is not
    transitively reachable and clears a long-weak handle in the condemned
    range whose referent is not; it never touches a long-weak handle out of
    the condemned range.  When the loop of the cycle ran to convergence
    (it ended for want of progress, not on the answer of
    [GcDhUnpromotedHandlesExist]), it also keeps every dependent handle
    whose primary is transitively reachable and every long-weak handle
    whose referent is. *)
Theorem cycle_then_GcWeakPtrScan fuel condemned max_gen sc w0 :
  size (cycle_candidates w0) < fuel →
  ∃ e w1 w2,
    dh_cycle fuel GCHeap_Promote condemned max_gen sc w0 = Returned e w1
    ∧ e ≠ OutOfFuel
    ∧ GcWeakPtrScan condemned max_gen sc w1 = Returned tt w2
    ∧ (∀ i p s, tbl_dependent (g_HandleTable w0) !! i = Some (p, s) →
         (¬ reachable w0 p →
            tbl_dependent (g_HandleTable w2) !! i = Some (NULL, NULL))
         ∧ (e = NoProgress → reachable w0 p →
            tbl_dependent (g_HandleTable w2) !! i = Some (p, s)))
    ∧ (∀ i slot, tbl_weak_long (g_HandleTable w0) !! i = Some slot →
         ((condemned < hnd_age slot)%Z →
            tbl_weak_long (g_HandleTable w2) !! i = Some slot)
         ∧ (¬ reachable w0 (hnd_ref slot) → (hnd_age slot ≤ condemned)%Z →
            tbl_weak_long (g_HandleTable w2) !! i
            = Some (mkHandleSlot (hnd_age slot) NULL))
         ∧ (e = NoProgress → reachable w0 (hnd_ref slot) →
            tbl_weak_long (g_HandleTable w2) !! i = Some slot)).
Proof.
  intros Hfuel.
  destruct (dh_cycle_ends fuel condemned max_gen sc w0 Hfuel)
    as (e & w1 & E1 & He & Ht & Hsound & Hcomplete & _).
  pose proof (dh_cycle_weak_long _ _ _ _ _ _ _ _ E1) as Hwl.
  exists e, w1. rewrite GcWeakPtrScan_steps, Ref_CheckReachable_eq,
    Ref_ScanDependentHandlesForClearing_eq.
  eexists. split; [done|]. split; [done|]. split; [reflexivity|]. simpl. split.
  - intros i p s Hi. rewrite Ht, list_lookup_fmap, Hi. simpl.
    unfold clear_dependent. simpl. split.
    + intros Hp. destruct (IsPromoted (g_theGCHeap w1) p) eqn:E; [|done].
      by apply Hsound in E.
    + intros Hconv Hp. by rewrite (Hcomplete Hconv p Hp).
  - intros i slot Hi. rewrite Hwl, list_lookup_fmap, Hi. simpl.
    unfold clear_if_dead, in_condemned_range. split; [|split].
    + intros Hage.
      destruct (Z.leb_spec (hnd_age slot) condemned); [lia | done].
    + intros Hp Hage.
      destruct (Z.leb_spec (hnd_age slot) condemned); [|lia].
      destruct (IsPromoted (g_theGCHeap w1) (hnd_ref slot)) eqn:E; [|done].
      by apply Hsound in E.
    + intros Hconv Hp. by rewrite (Hcomplete Hconv _ Hp), andb_false_r.
Qed.

(** The weak chain runs to convergence. *)
Example weak_chain_after_cycle :
  match dh_cycle 5 GCHeap_Promote 1 2 (mkScanContext 0 true) weak_chain_world with
  | Returned e w =>
      (e, IsPromoted (g_theGCHeap w) <$> [1; 3; 4; 5; 7; 8]%Z)
  | AssertFailed _ => (OutOfFuel, [])
  end = (NoProgress, [true; true; true; true; false; false]).
Proof. vm_compute. reflexivity. Qed.

Lemma cycle_then_GcWeakPtrScan_witness :
  ∃ w1 w2,
    dh_cycle 5 GCHeap_Promote 1 2 (mkScanContext 0 true) weak_chain_world
    = Returned NoProgress w1
    ∧ GcWeakPtrScan 1 2 (mkScanContext 0 true) w1 = Returned tt w2
    ∧ tbl_dependent (g_HandleTable w2) !! 0 = Some (3, 4)%Z
    ∧ (¬ reachable weak_chain_world 7%Z →
       tbl_dependent (g_HandleTable w2) !! 2 = Some (NULL, NULL)).
Proof.
  destruct (cycle_then_GcWeakPtrScan 5 1 2 (mkScanContext 0 true)
              weak_chain_world) as (e & w1 & w2 & E1 & He & E2 & Hdep & _).
  - vm_compute. lia.
  - assert (e = NoProgress) as ->.
    { change e with (match Returned e w1 with
                     | Returned x _ => x
                     | AssertFailed _ => OutOfFuel
                     end).
      rewrite <- E1. vm_compute. reflexivity. }
    exists w1, w2. split; [exact E1|]. split; [exact E2|]. split.
    + apply (proj2 (Hdep 0 3%Z 4%Z eq_refl) eq_refl).
      apply reach_dependent with 1%Z.
      * apply reach_marked. simpl. by apply elem_of_singleton.
      * simpl. apply elem_of_cons. right. apply elem_of_cons. by left.
    + exact (proj1 (Hdep 2 7%Z 8%Z eq_refl)).
Defined.

(** * Exception trackers *)

(** X12. [DestroyExceptionHandle] always leaves the tracker without a
    throwable handle, so that [GetThrowable] then answers [NULL] whatever
    the handle table holds, and changes no other member.  It calls
    [DestroyHandle], once and on the tracker's handle, exactly when that
    handle is not null and not preallocated: a preallocated handle is never
    destroyed.  A second call changes nothing. *)
Theorem DestroyExceptionHandle_spares_preallocated
    (HandleStore : Type) (ObjectFromHandle : Z → HandleStore → Object)
    (IsPreallocatedExceptionHandle : Z → bool)
    (DestroyHandle : Z → HandleStore → HandleStore)
    (this : EH.ExceptionTrackerBase) (store : HandleStore) :
  let destroy :=
    EH.DestroyExceptionHandle HandleStore IsPreallocatedExceptionHandle
      DestroyHandle in
  (destroy this store).1 = EH.set_m_hThrowable 0 this
  ∧ (∀ store', EH.GetThrowable HandleStore ObjectFromHandle
                 (destroy this store).1 store' = NULL)
  ∧ (EH.m_hThrowable this = 0%Z
     ∨ IsPreallocatedExceptionHandle (EH.m_hThrowable this) = true →
     (destroy this store).2 = store)
  ∧ (EH.m_hThrowable this ≠ 0%Z →
     IsPreallocatedExceptionHandle (EH.m_hThrowable this) = false →
     (destroy this store).2 = DestroyHandle (EH.m_hThrowable this) store)
  ∧ destroy (destroy this store).1 (destroy this store).2 = destroy this store.
Proof.
  cbv zeta. unfold EH.DestroyExceptionHandle, EH.GetThrowable. simpl.
  split; [done|]. split; [done|]. split; [|split].
  - intros [->| ->]; [done|]. by rewrite andb_false_r.
  - intros Hh ->. by rewrite bool_decide_eq_true_2.
  - done.
Qed.

Lemma DestroyExceptionHandle_spares_preallocated_witness :
  (EH.DestroyExceptionHandle (gmap Z Z) EH.example_IsPreallocated
     EH.example_DestroyHandle
     (EH.set_m_hThrowable 7 EH.ExceptionTracker_default) EH.example_store).2
  = EH.example_store
  ∧ (EH.DestroyExceptionHandle (gmap Z Z) EH.example_IsPreallocated
       EH.example_DestroyHandle
       (EH.set_m_hThrowable 9 EH.ExceptionTracker_default) EH.example_store).2
    = EH.example_DestroyHandle 9 EH.example_store.
Proof.
  split.
  - apply (DestroyExceptionHandle_spares_preallocated (gmap Z Z)
             EH.example_ObjectFromHandle EH.example_IsPreallocated
             EH.example_DestroyHandle
             (EH.set_m_hThrowable 7 EH.ExceptionTracker_default)
             EH.example_store).
    right. reflexivity.
  - apply (DestroyExceptionHandle_spares_preallocated (gmap Z Z)
             EH.example_ObjectFromHandle EH.example_IsPreallocated
             EH.example_DestroyHandle
             (EH.set_m_hThrowable 9 EH.ExceptionTracker_default)
             EH.example_store).
    + simpl. lia.
    + reflexivity.
Defined.

(** X13. A tracker fresh from the constructor has no throwable whatever the
    handle table holds, has delivered no first chance notification, carries
    the exception code of its record, or 0 when it was given no record, and
    [DestroyExceptionHandle] on it destroys no handle and leaves it as it
    is. *)
Theorem fresh_tracker
    (HandleStore : Type) (ObjectFromHandle : Z → HandleStore → Object)
    (IsPreallocatedExceptionHandle : Z → bool)
    (DestroyHandle : Z → HandleStore → HandleStore)
    pExceptionRecord pExceptionContext pPrevNestedInfo (store : HandleStore) :
  let this :=
    EH.ExceptionTrackerBase_new pExceptionRecord pExceptionContext
      pPrevNestedInfo in
  EH.GetThrowable HandleStore ObjectFromHandle this store = NULL
  ∧ EH.GetThrowableAsHandle this = 0%Z
  ∧ EH.DeliveredFirstChanceNotification this = EH.FALSE
  ∧ EH.GetPreviousExceptionTracker this = pPrevNestedInfo
  ∧ (pExceptionRecord = None → EH.GetExceptionCode this = 0%Z)
  ∧ (∀ record, pExceptionRecord = Some record →
       EH.GetExceptionCode this = EH.ExceptionCode record)
  ∧ EH.DestroyExceptionHandle HandleStore IsPreallocatedExceptionHandle
      DestroyHandle this store = (this, store).
Proof.
  cbv zeta. split; [done|]. split; [done|]. split; [done|]. split; [done|].
  split; [by intros ->|]. split; [by intros record ->|]. done.
Qed.

Lemma fresh_tracker_witness :
  EH.GetExceptionCode EH.ExceptionTracker_default = 0%Z
  ∧ EH.GetExceptionCode
      (EH.ExceptionTrackerBase_new (Some (EH.mkEXCEPTION_RECORD 3221225477)) 0 0)
    = 3221225477%Z.
Proof.
  destruct (fresh_tracker (gmap Z Z) EH.example_ObjectFromHandle
              EH.example_IsPreallocated EH.example_DestroyHandle
              None 0 0 EH.example_store) as (_ & _ & _ & _ & Hnone & _).
  destruct (fresh_tracker (gmap Z Z) EH.example_ObjectFromHandle
              EH.example_IsPreallocated EH.example_DestroyHandle
              (Some (EH.mkEXCEPTION_RECORD 3221225477)) 0 0 EH.example_store)
    as (_ & _ & _ & _ & _ & Hsome & _).
  split; [exact (Hnone eq_refl) | exact (Hsome _ eq_refl)].
Defined.

(** X14. For a positive tracker size and a header no larger than the page,
    [NUM_TRACKERS_PER_PAGE] trackers and the header fit in
    [TRACKER_ALLOCATOR_PAGE_SIZE] bytes, and one tracker more would not. *)
Theorem trackers_fit_the_page sizeof_PageHeader sizeof_ExceptionTracker :
  (0 < sizeof_ExceptionTracker)%Z →
  (0 ≤ sizeof_PageHeader ≤ EH.TRACKER_ALLOCATOR_PAGE_SIZE)%Z →
  let n := EH.NUM_TRACKERS_PER_PAGE sizeof_PageHeader sizeof_ExceptionTracker in
  (0 ≤ n)%Z
  ∧ (sizeof_PageHeader + n * sizeof_ExceptionTracker
     ≤ EH.TRACKER_ALLOCATOR_PAGE_SIZE)%Z
  ∧ (EH.TRACKER_ALLOCATOR_PAGE_SIZE
     < sizeof_PageHeader + (n + 1) * sizeof_ExceptionTracker)%Z.
Proof.
  intros Htrk Hhdr. cbv zeta. unfold EH.NUM_TRACKERS_PER_PAGE.
  set (room := (EH.TRACKER_ALLOCATOR_PAGE_SIZE - sizeof_PageHeader)%Z).
  assert (0 ≤ room)%Z by (unfold room; lia).
  pose proof (Z.div_pos room sizeof_ExceptionTracker ltac:(lia) Htrk).
  pose proof (Z.mul_div_le room sizeof_ExceptionTracker Htrk).
  pose proof (Z.mul_succ_div_gt room sizeof_ExceptionTracker Htrk).
  unfold room in *. split; [lia|]. split; lia.
Qed.

Lemma trackers_fit_the_page_witness :
  (0 ≤ EH.NUM_TRACKERS_PER_PAGE 16 400)%Z
  ∧ (16 + EH.NUM_TRACKERS_PER_PAGE 16 400 * 400 ≤ EH.TRACKER_ALLOCATOR_PAGE_SIZE)%Z
  ∧ (EH.TRACKER_ALLOCATOR_PAGE_SIZE
     < 16 + (EH.NUM_TRACKERS_PER_PAGE 16 400 + 1) * 400)%Z.
Proof.
  apply (trackers_fit_the_page 16 400).
  - lia.
  - unfold EH.TRACKER_ALLOCATOR_PAGE_SIZE. lia.
Defined.

Lemma Z_land_lor_same (d m : Z) : Z.land (Z.lor d m) m = m.
Proof.
  apply Z.bits_inj'. intros n Hn. rewrite Z.land_spec, Z.lor_spec.
  by destruct (Z.testbit d n), (Z.testbit m n).
Qed.

(** X15. On either host width the two markers of [InlinedCallFrameMarker]
    are disjoint bits covered by [Mask]: or-ing one into a datum makes it
    readable and neither sets nor clears the other, and clearing [Mask]
    removes both.  On a 64-bit host or-ing markers into a datum leaves its
    bit 0 as it was. *)
Theorem InlinedCallFrameMarker_bits (HOST_64BIT : bool) (datum : Z) :
  let helper := EH.ExceptionHandlingHelper HOST_64BIT in
  let caller := EH.SecondPassFuncletCaller HOST_64BIT in
  let mask := EH.Mask HOST_64BIT in
  Z.land helper caller = 0%Z
  ∧ Z.land (Z.lor datum helper) helper = helper
  ∧ Z.land (Z.lor datum caller) caller = caller
  ∧ Z.land (Z.lor datum helper) caller = Z.land datum caller
  ∧ Z.land (Z.lor datum caller) helper = Z.land datum helper
  ∧ Z.land helper mask = helper
  ∧ Z.land caller mask = caller
  ∧ Z.land (Z.land datum (Z.lnot mask)) mask = 0%Z
  ∧ (HOST_64BIT = true →
     Z.testbit (Z.lor datum mask) 0 = Z.testbit datum 0).
Proof.
  cbv zeta.
  assert (Z.land (EH.ExceptionHandlingHelper HOST_64BIT)
                 (EH.SecondPassFuncletCaller HOST_64BIT) = 0%Z) as Hdisj
    by (by destruct HOST_64BIT).
  split; [done|]. split; [apply Z_land_lor_same|].
  split; [apply Z_land_lor_same|].
  split; [by rewrite Z.land_lor_distr_l, Hdisj, Z.lor_0_r|].
  split; [by rewrite Z.land_lor_distr_l, (Z.land_comm (EH.SecondPassFuncletCaller _)),
             Hdisj, Z.lor_0_r|].
  split; [by destruct HOST_64BIT|]. split; [by destruct HOST_64BIT|].
  split.
  - rewrite <- Z.land_assoc, (Z.land_comm (Z.lnot _)), Z.land_lnot_diag.
    apply Z.land_0_r.
  - intros ->. rewrite Z.lor_spec. simpl. apply orb_false_r.
Qed.

Lemma InlinedCallFrameMarker_bits_witness :
  Z.testbit (Z.lor 1 (EH.Mask true)) 0 = Z.testbit 1 0
  ∧ Z.land (Z.lor 1 (EH.ExceptionHandlingHelper true))
           (EH.SecondPassFuncletCaller true) = Z.land 1 (EH.SecondPassFuncletCaller true).
Proof.
  destruct (InlinedCallFrameMarker_bits true 1)
    as (_ & _ & _ & Hother & _ & _ & _ & _ & Hbit0).
  split; [exact (Hbit0 eq_refl) | exact Hother].
Defined.
